(** * Challenge orchestrator (cli_hunt/python_orchestrator/main.py)

    A shallow embedding of the orchestrator: the persisted challenge store,
    the three commands [init], [fetch] and [solve], and the properties the
    specification states about them.

    Conventions of the embedding.
    - Python [str] values are [string]s (bytes of the UTF-8 encoding);
      comparing them byte-wise, as [String.leb] does, orders them as Python
      orders code points.
    - A JSON object of fixed shape is a record; a key the code reads with
      [.get(key, default)], or whose absence a claim is about, is an
      [option] field.
    - The store, a Python [dict] (insertion ordered), is an association list.
    - The command line, the HTTP service, the solver process, the clock and
      the receipt files are the outside world: an abstract [World] with one
      function per call the code makes.  Every call and every [print] is
      recorded in a log, so that "no solver was invoked" can be stated.
    - An exception that no [except] clause of the source catches ends the
      command: the model returns [Raised]. *)

From Stdlib Require Import String Ascii List ZArith Bool Arith Lia.
From Stdlib Require Import Permutation Sorted.
Import ListNotations.

Local Open Scope string_scope.
Local Open Scope list_scope.

(** ** Data model *)

(** One element of a [challenge_queue]. *)
Record Challenge := mkChallenge {
  challengeId : string;
  challengeNumber : Z;
  campaignDay : Z;
  difficulty : string;
  status : string;
  noPreMine : string;
  noPreMineHour : string;
  latestSubmission : option string;
  availableAt : string;
  solvedAt : option string;
  salt : option string;
  hash : option string
}.

(** [challenge["status"] = s] *)
Definition set_status (c : Challenge) (s : string) : Challenge :=
  mkChallenge (challengeId c) (challengeNumber c) (campaignDay c)
    (difficulty c) s (noPreMine c) (noPreMineHour c) (latestSubmission c)
    (availableAt c) (solvedAt c) (salt c) (hash c).

(** [challenge["solvedAt"] = t] *)
Definition set_solvedAt (c : Challenge) (t : string) : Challenge :=
  mkChallenge (challengeId c) (challengeNumber c) (campaignDay c)
    (difficulty c) (status c) (noPreMine c) (noPreMineHour c)
    (latestSubmission c) (availableAt c) (Some t) (salt c) (hash c).

(** [challenge["salt"] = n] *)
Definition set_salt (c : Challenge) (n : string) : Challenge :=
  mkChallenge (challengeId c) (challengeNumber c) (campaignDay c)
    (difficulty c) (status c) (noPreMine c) (noPreMineHour c)
    (latestSubmission c) (availableAt c) (solvedAt c) (Some n) (hash c).

(** [challenge["hash"] = h] *)
Definition set_hash (c : Challenge) (h : string) : Challenge :=
  mkChallenge (challengeId c) (challengeNumber c) (campaignDay c)
    (difficulty c) (status c) (noPreMine c) (noPreMineHour c)
    (latestSubmission c) (availableAt c) (solvedAt c) (salt c) (Some h).

(** The registration receipt: only [walletAddress] is ever read. *)
Record Receipt := mkReceipt {
  walletAddress : option string;
  receiptPayload : string
}.

(** The value stored under one address. *)
Record AddressEntry := mkEntry {
  registration_receipt : option Receipt;
  challenge_queue : option (list Challenge)
}.

Definition set_challenge_queue (e : AddressEntry) (q : list Challenge)
  : AddressEntry :=
  mkEntry (registration_receipt e) (Some q).

Definition Store := list (string * AddressEntry).

(** The content of a receipt file given to [init]. *)
Record ReceiptData := mkReceiptData {
  file_registration_receipt : option Receipt;
  file_challenge_queue : option (list Challenge)
}.

Inductive FileRead :=
| FileMissing                      (* os.path.exists is False *)
| FileUndecodable                  (* json.JSONDecodeError *)
| FileRaises                       (* any other exception: see [init_file] *)
| FileJson (data : ReceiptData).

(** The ["challenge"] object of the issuance endpoint. *)
Record ChallengeData := mkChallengeData {
  challenge_id : string;
  challenge_number : Z;
  day : Z;
  cd_difficulty : string;
  no_pre_mine : string;
  no_pre_mine_hour : string;
  latest_submission : string;
  issued_at : string
}.

Inductive Exn :=
| KeyError (key : string)
| ValueError
| OtherException.

Inductive GetResult :=
| GetOk (challenge_data : ChallengeData)
| GetRequestException              (* transport error or raise_for_status *)
| GetUncaught (e : Exn).           (* e.g. KeyError on the response body *)

Inductive SolverResult :=
| SolverCompleted (stdout : string)
| SolverCalledProcessError (stderr : string)
| SolverException.                 (* any other exception of subprocess.run *)

Inductive ResponseBody :=
| BodyUndecodable                  (* json.JSONDecodeError: pass *)
| BodyObject (h : option string)   (* an object, with or without "hash" *)
| BodyOther.                       (* the "hash" lookup raises TypeError *)

Inductive PostResult :=
| PostOk (body : ResponseBody)
| PostRequestException             (* transport error or raise_for_status *)
| PostException.                   (* any other exception *)

(** The persisted document [DB_FILE], as [load_db] sees it. *)
Inductive Document :=
| Missing
| Undecodable
| Decodes (db : Store).

(** ** Python helpers *)

Definition DB_FILE : string := "challenges.json".
Definition RUST_SOLVER_PATH : string :=
  "../rust_solver/target/release/ashmaize-solver".

(** [d.get(k)] *)
Fixpoint dict_get {V : Type} (k : string) (d : list (string * V))
  : option V :=
  match d with
  | [] => None
  | (k', v) :: d' => if String.eqb k k' then Some v else dict_get k d'
  end.

(** [d[k] = v]: replaces in place, or appends a new key at the end. *)
Fixpoint dict_set {V : Type} (k : string) (v : V) (d : list (string * V))
  : list (string * V) :=
  match d with
  | [] => [(k, v)]
  | (k', v') :: d' =>
      if String.eqb k k' then (k, v) :: d' else (k', v') :: dict_set k v d'
  end.

(** [list(d.keys())] *)
Definition keys {V : Type} (d : list (string * V)) : list string :=
  map fst d.

(** [o.get(key, default)] on an optional field. *)
Definition get_default {A : Type} (o : option A) (default : A) : A :=
  match o with Some a => a | None => default end.

(** [x in ids] *)
Definition id_in (x : string) (ids : list string) : bool :=
  existsb (String.eqb x) ids.

(** [any(c["challengeId"] == x for c in q)] *)
Definition any_id (x : string) (q : list Challenge) : bool :=
  existsb (fun c => String.eqb (challengeId c) x) q.

(** [q.sort(key=lambda c: c["challengeId"])]: a stable sort; the element
    inserted stood before the ones it is inserted into, so it goes before
    the first key that is not smaller. *)
Fixpoint insert_by_id (c : Challenge) (q : list Challenge) : list Challenge :=
  match q with
  | [] => [c]
  | d :: q' =>
      if String.leb (challengeId c) (challengeId d)
      then c :: d :: q'
      else d :: insert_by_id c q'
  end.

Fixpoint sort_by_id (q : list Challenge) : list Challenge :=
  match q with
  | [] => []
  | c :: q' => insert_by_id c (sort_by_id q')
  end.

(** [str.isspace], read on the UTF-8 encoding of the text.  The white
    space of Python is U+0009-000D, U+001C-0020, U+0085, U+00A0, U+1680,
    U+2000-200A, U+2028, U+2029, U+202F, U+205F and U+3000: one, two or
    three bytes. *)
Definition isspace (c : ascii) : bool :=
  let n := nat_of_ascii c in
  (((9 <=? n) && (n <=? 13)) || ((28 <=? n) && (n <=? 32)))%nat.

Definition isspace2 (c1 c2 : ascii) : bool :=
  let n1 := nat_of_ascii c1 in
  let n2 := nat_of_ascii c2 in
  ((n1 =? 194) && ((n2 =? 133) || (n2 =? 160)))%nat.

Definition isspace3 (c1 c2 c3 : ascii) : bool :=
  let n1 := nat_of_ascii c1 in
  let n2 := nat_of_ascii c2 in
  let n3 := nat_of_ascii c3 in
  (((n1 =? 225) && (n2 =? 154) && (n3 =? 128))
   || ((n1 =? 226) && (n2 =? 128)
       && (((128 <=? n3) && (n3 <=? 138))
           || (n3 =? 168) || (n3 =? 169) || (n3 =? 175)))
   || ((n1 =? 226) && (n2 =? 129) && (n3 =? 159))
   || ((n1 =? 227) && (n2 =? 128) && (n3 =? 128)))%nat.

(** [s.lstrip()] *)
Fixpoint lstrip (s : string) : string :=
  match s with
  | EmptyString => EmptyString
  | String c1 r1 =>
      if isspace c1 then lstrip r1
      else
        match r1 with
        | EmptyString => s
        | String c2 r2 =>
            if isspace2 c1 c2 then lstrip r2
            else
              match r2 with
              | EmptyString => s
              | String c3 r3 => if isspace3 c1 c2 c3 then lstrip r3 else s
              end
        end
  end.

(** The same on the bytes in reverse order: the last byte comes first. *)
Fixpoint lstrip_reversed (s : string) : string :=
  match s with
  | EmptyString => EmptyString
  | String c1 r1 =>
      if isspace c1 then lstrip_reversed r1
      else
        match r1 with
        | EmptyString => s
        | String c2 r2 =>
            if isspace2 c2 c1 then lstrip_reversed r2
            else
              match r2 with
              | EmptyString => s
              | String c3 r3 =>
                  if isspace3 c3 c2 c1 then lstrip_reversed r3 else s
              end
        end
  end.

Definition reverse (s : string) : string :=
  string_of_list_ascii (rev (list_ascii_of_string s)).

(** [s.rstrip()] *)
Definition rstrip (s : string) : string :=
  reverse (lstrip_reversed (reverse s)).

(** [s.strip()] *)
Definition strip (s : string) : string := rstrip (lstrip s).

(** [if address:] is false for [None] and for the empty string. *)
Definition truthy (a : option string) : option string :=
  match a with
  | Some EmptyString => None
  | _ => a
  end.

(** ** Queue invariant: ascending ids, no duplicate id *)

Definition id_le (a b : Challenge) : Prop :=
  String.leb (challengeId a) (challengeId b) = true.

Definition queue_sorted (q : list Challenge) : Prop := Sorted id_le q.

Definition queue_unique (q : list Challenge) : Prop :=
  NoDup (map challengeId q).

Definition queue_ok (q : list Challenge) : Prop :=
  queue_sorted q /\ queue_unique q.

(** Every queue of the store satisfies the invariant; an entry without a
    ["challenge_queue"] key has the empty queue. *)
Definition store_ok (db : Store) : Prop :=
  Forall (fun kv => queue_ok (get_default (challenge_queue (snd kv)) [])) db.

(** Executable versions. *)
Fixpoint is_sorted_by_id (q : list Challenge) : bool :=
  match q with
  | [] => true
  | c :: q' =>
      match q' with
      | [] => true
      | d :: _ => String.leb (challengeId c) (challengeId d)
                  && is_sorted_by_id q'
      end
  end.

Fixpoint has_unique_ids (q : list Challenge) : bool :=
  match q with
  | [] => true
  | c :: q' => negb (any_id (challengeId c) q') && has_unique_ids q'
  end.

(** ** Messages and events *)

(** One constructor per [print] of the source. *)
Inductive Message :=
| MsgDbWarning                                   (* load_db *)
| MsgUpdating                                    (* init_db *)
| MsgFileNotFound (file_path : string)
| MsgAddedAddress (address : string)
| MsgUpdatingAddress (address : string)
| MsgAddedChallenges (new_challenges_count : nat)
| MsgNoNewChallenges
| MsgNoAddress (file_path : string)
| MsgDecodeError (file_path : string)
| MsgUnexpectedFile (file_path : string)
| MsgUpdateComplete
| MsgFetching                                    (* fetch_challenges *)
| MsgNewChallenge (address id : string)
| MsgChallengeExists (id address : string)
| MsgAddressSkipped (address : string)
| MsgFetchError (address : string)
| MsgSolving                                     (* solve_challenges *)
| MsgExpired (id address : string)
| MsgAttempt (id address : string)
| MsgFoundNonce (nonce : string)
| MsgSubmitted (id : string)
| MsgSolverError (stderr : string)
| MsgSubmitError
| MsgUnexpected
| MsgNotInitialized.                             (* main *)

Inductive Event :=
| Print (m : Message)
| HttpGet (url : string)
| RunSolver (command : list string)
| HttpPost (url : string).

(** No call to the remote service and no solver run. *)
Definition is_print (e : Event) : bool :=
  match e with Print _ => true | _ => false end.

Inductive Command :=
| CmdInit (files : list string)
| CmdFetch
| CmdSolve.

(** How a command ends: normally, or by an exception nothing caught. *)
Inductive Outcome (A : Type) :=
| Returned (a : A)
| Raised (e : Exn).
Arguments Returned {A} a.
Arguments Raised {A} e.

(** ** Writing the document: what [save_db] does to the file

    [save_db] opens [DB_FILE] with mode ["w"] and lets [json.dump] write the
    document chunk by chunk.  [iterencode db] is the list of chunks
    [json.dump(db, f, indent=4)] writes; [fault = Some k] makes the write of
    chunk [k] raise (an encoder or I/O error), [None] lets all of them
    through.  The file content is [None] when the file does not exist. *)

Section SaveProtocol.

Variable iterencode : Store -> list string.

(** [for chunk in iterable: fp.write(chunk)] *)
Fixpoint write_chunks (chunks : list string) (fault : option nat)
    (content : string) : Outcome unit * string :=
  match chunks with
  | [] => (Returned tt, content)
  | chunk :: rest =>
      match fault with
      | Some O => (Raised OtherException, content)
      | Some (S k) => write_chunks rest (Some k) (content ++ chunk)%string
      | None => write_chunks rest None (content ++ chunk)%string
      end
  end.

(** [with open(DB_FILE, "w") as f: json.dump(db, f, indent=4)]: opening
    with ["w"] creates the file or truncates it, before anything is
    written; leaving the [with] block, also by an exception, closes and
    flushes what was written. *)
Definition save_db_file (fault : option nat) (db : Store)
    (file : option string) : Outcome unit * option string :=
  let truncated := EmptyString in
  let (r, content) := write_chunks (iterencode db) fault truncated in
  (r, Some content).

End SaveProtocol.

(** ** A concrete world, for the examples *)

Module Demo.

Definition newline : string := String (ascii_of_nat 10) EmptyString.

(** The clock of this world is its state: milliseconds since the epoch. *)
Definition World := Z.

Definition nov1 : string := "2025-11-01T00:00:00.000Z".
Definition nov3 : string := "2025-11-03T00:00:00.000Z".

(** Two instants, and anything else is malformed. *)
Definition fromisoformat (s : string) : option Z :=
  if String.eqb s nov1 then Some 1761955200000%Z
  else if String.eqb s nov3 then Some 1762128000000%Z
  else None.

(** [n] in decimal, on [width] digits, in front of [acc]. *)
Fixpoint digits (width : nat) (n : Z) (acc : string) : string :=
  match width with
  | O => acc
  | S width' =>
      digits width' (n / 10)%Z
        (String (ascii_of_nat (48 + Z.to_nat (n mod 10))) acc)
  end.

(** The civil date of a day counted from 1970-01-01, in the proleptic
    Gregorian calendar. *)
Definition civil_from_days (days : Z) : Z * Z * Z :=
  (let z := days + 719468 in
   let era := z / 146097 in
   let doe := z - era * 146097 in
   let yoe := (doe - doe / 1460 + doe / 36524 - doe / 146096) / 365 in
   let doy := doe - (365 * yoe + yoe / 4 - yoe / 100) in
   let mp := (5 * doy + 2) / 153 in
   let d := doy - (153 * mp + 2) / 5 + 1 in
   let m := if mp <? 10 then mp + 3 else mp - 9 in
   let y := yoe + era * 400 + (if m <=? 2 then 1 else 0) in
   (y, m, d))%Z.

(** An instant in milliseconds since the epoch, as
    [isoformat(timespec="milliseconds")] with [+00:00] replaced by [Z]. *)
Definition isoformat (t : Z) : string :=
  (let ms := t mod 86400000 in
   let '(y, m, d) := civil_from_days (t / 86400000) in
   let millis := digits 3 (ms mod 1000) "Z" in
   let seconds := digits 2 (ms / 1000 mod 60) (append "." millis) in
   let minutes := digits 2 (ms / 60000 mod 60) (append ":" seconds) in
   let hours := digits 2 (ms / 3600000) (append ":" minutes) in
   digits 4 y
     (append "-" (digits 2 m (append "-" (digits 2 d (append "T" hours))))))%Z.

Definition datetime_now (w : World) : Z * World := (w, w).

(** Noon of November 2nd. *)
Definition noon : World := 1762084800000%Z.

Definition challenge (id st : string) (latest : option string) : Challenge :=
  mkChallenge id 1 1 "000FFFFF" st "fd651ac2725e3b9d"  "509681483"
    latest "2025-10-31T00:00:00.000Z" None None None.

Definition c1 : Challenge := challenge "**D01C01" "available" (Some nov3).
Definition c2 : Challenge := challenge "**D01C02" "available" (Some nov3).
Definition c1_past : Challenge := challenge "**D01C01" "available" (Some nov1).
Definition c2_past : Challenge := challenge "**D01C02" "available" (Some nov1).
Definition c1_nokey : Challenge := challenge "**D01C01" "available" None.
Definition c1_malformed : Challenge :=
  challenge "**D01C01" "available" (Some "tomorrow").

Definition addr1 : string := "addr1".

Definition receipt : Receipt := mkReceipt (Some addr1) "signature".

(** [sorted.json] lists its challenges in order, [unsorted.json] does not. *)
Definition read_json (w : World) (file_path : string) : FileRead :=
  if String.eqb file_path "sorted.json"
  then FileJson (mkReceiptData (Some receipt) (Some [c1; c2]))
  else if String.eqb file_path "unsorted.json"
  then FileJson (mkReceiptData (Some receipt) (Some [c2; c1]))
  else if String.eqb file_path "broken.json" then FileUndecodable
  else if String.eqb file_path "locked.json" then FileRaises
  else FileMissing.

(** A world whose receipt files all list their challenges in order. *)
Definition read_sorted (w : World) (file_path : string) : FileRead :=
  if String.eqb file_path "sorted.json"
  then FileJson (mkReceiptData (Some receipt) (Some [c1; c2]))
  else FileMissing.

Definition challenge_data_c2 : ChallengeData :=
  mkChallengeData "**D01C02" 1 1 "000FFFFF" "fd651ac2725e3b9d" "509681483"
    nov3 "2025-10-31T00:00:00.000Z".

Definition requests_get (url : string) (w : World) : GetResult * World :=
  (GetOk challenge_data_c2, w).

Definition subprocess_run (command : list string) (w : World)
  : SolverResult * World :=
  (SolverCompleted ("abc123" ++ newline)%string, w).

Definition post_ok (url : string) (w : World) : PostResult * World :=
  (PostOk (BodyObject None), w).

Definition post_fails (url : string) (w : World) : PostResult * World :=
  (PostRequestException, w).

Definition store1 (q : list Challenge) : Store :=
  [(addr1, mkEntry (Some receipt) (Some q))].

End Demo.

(** ** The program *)

Section Orchestrator.

(** The outside world and the calls the code makes into it. *)
Variable World : Type.
Variable read_json : World -> string -> FileRead.
Variable requests_get : string -> World -> GetResult * World.
Variable subprocess_run : list string -> World -> SolverResult * World.
Variable requests_post : string -> World -> PostResult * World.
Variable datetime_now : World -> Z * World.

(** [datetime.fromisoformat(s.replace("Z", "+00:00"))] as an instant;
    [None] when it raises [ValueError], or yields a naive datetime, which
    the comparison with the aware [now] rejects with [TypeError]. *)
Variable fromisoformat : string -> option Z.

(** [t.isoformat(timespec="milliseconds").replace("+00:00", "Z")] *)
Variable isoformat : Z -> string.

Record State := mkState {
  disk : Document;
  world : World;
  out : list Event
}.

(** State and uncaught exceptions. *)
Definition M (A : Type) : Type := State -> Outcome A * State.

Definition ret {A : Type} (a : A) : M A := fun s => (Returned a, s).

Definition bind {A B : Type} (m : M A) (k : A -> M B) : M B :=
  fun s =>
    match m s with
    | (Returned a, s') => k a s'
    | (Raised e, s') => (Raised e, s')
    end.

Definition raise {A : Type} (e : Exn) : M A := fun s => (Raised e, s).

Notation "x <- m ;; k" := (bind m (fun x => k))
  (at level 61, m at next level, right associativity).
Notation "m ;;; k" := (bind m (fun _ => k))
  (at level 61, right associativity).

Definition emit (e : Event) : M unit :=
  fun s => (Returned tt, mkState (disk s) (world s) (out s ++ [e])).

Definition print (m : Message) : M unit := emit (Print m).

(** A call into the world: the event is logged, the world moves on. *)
Definition call {R : Type} (e : Event) (f : World -> R * World) : M R :=
  fun s =>
    let (r, w) := f (world s) in
    (Returned r, mkState (disk s) w (out s ++ [e])).

Definition now_utc : M Z :=
  fun s =>
    let (t, w) := datetime_now (world s) in
    (Returned t, mkState (disk s) w (out s)).

Definition open_json (file_path : string) : M FileRead :=
  fun s => (Returned (read_json (world s) file_path), s).

(** [for x in l: acc = body(acc, x)] *)
Fixpoint for_each {A S : Type} (body : S -> A -> M S) (l : list A) (acc : S)
  : M S :=
  match l with
  | [] => ret acc
  | x :: l' => acc' <- body acc x ;; for_each body l' acc'
  end.

(** [for x in l: mutate x], the list rebuilt with the mutated elements. *)
Fixpoint for_each_item {A : Type} (body : A -> M A) (l : list A)
  : M (list A) :=
  match l with
  | [] => ret []
  | x :: l' => x' <- body x ;; l'' <- for_each_item body l' ;; ret (x' :: l'')
  end.

(** *** ChallengeStore

    [save_db] here is the write that goes through: the document then
    decodes to the store written.  What a failing write leaves in the file
    is [save_db_file], above. *)

Definition save_db (db : Store) : M unit :=
  fun s => (Returned tt, mkState (Decodes db) (world s) (out s)).

Definition load_db : M Store :=
  fun s =>
    match disk s with
    | Missing => ret [] s
    | Undecodable => (print MsgDbWarning ;;; ret []) s
    | Decodes db => ret db s
    end.

(** *** ReceiptImporter *)

(** [data.get("registration_receipt", {}).get("walletAddress")] *)
Definition receipt_address (data : ReceiptData) : option string :=
  match file_registration_receipt data with
  | Some r => walletAddress r
  | None => None
  end.

(** Lines 55-58: [existing_ids] is computed once, before the loop. *)
Fixpoint append_new (existing_ids : list string) (incoming : list Challenge)
    (existing_queue : list Challenge) (new_challenges_count : nat)
  : list Challenge * nat :=
  match incoming with
  | [] => (existing_queue, new_challenges_count)
  | challenge :: rest =>
      if id_in (challengeId challenge) existing_ids
      then append_new existing_ids rest existing_queue new_challenges_count
      else append_new existing_ids rest (existing_queue ++ [challenge])
             (S new_challenges_count)
  end.

(** The body of the loop of [init_db] over [json_files].  The [except
    Exception] clause of lines 70-71 is [FileRaises]: the file cannot be
    opened or read, or the document is not an object with an object under
    ["registration_receipt"]; all of these raise before the store is
    touched.  The records of a challenge queue are [Challenge]s, each with
    its [challengeId], so the lookups of lines 53 and 56 find their key:
    a record without an id is outside the data model. *)
Definition init_file (db : Store) (file_path : string) : M Store :=
  f <- open_json file_path ;;
  match f with
  | FileMissing => print (MsgFileNotFound file_path) ;;; ret db
  | FileUndecodable => print (MsgDecodeError file_path) ;;; ret db
  | FileRaises => print (MsgUnexpectedFile file_path) ;;; ret db
  | FileJson data =>
      match truthy (receipt_address data) with
      | Some address =>
          match dict_get address db with
          | None =>
              let entry :=
                mkEntry (file_registration_receipt data)
                  (Some (get_default (file_challenge_queue data) [])) in
              print (MsgAddedAddress address) ;;;
              ret (dict_set address entry db)
          | Some entry =>
              print (MsgUpdatingAddress address) ;;;
              let existing_queue :=
                get_default (challenge_queue entry) [] in
              let existing_ids := map challengeId existing_queue in
              let (existing_queue', new_challenges_count) :=
                append_new existing_ids
                  (get_default (file_challenge_queue data) [])
                  existing_queue 0 in
              if (0 <? new_challenges_count)%nat
              then
                print (MsgAddedChallenges new_challenges_count) ;;;
                ret (dict_set address
                       (set_challenge_queue entry
                          (sort_by_id existing_queue')) db)
              else print MsgNoNewChallenges ;;; ret db
          end
      | None => print (MsgNoAddress file_path) ;;; ret db
      end
  end.

Definition init_db (json_files : list string) : M unit :=
  print MsgUpdating ;;;
  db <- load_db ;;
  db' <- for_each init_file json_files db ;;
  save_db db' ;;;
  print MsgUpdateComplete.

(** *** ChallengeFetcher *)

Definition challenge_url : string := "https://sm.midnight.gd/api/challenge".

Definition new_challenge_of (challenge_data : ChallengeData) : Challenge :=
  mkChallenge (challenge_id challenge_data)
    (challenge_number challenge_data) (day challenge_data)
    (cd_difficulty challenge_data) "available"
    (no_pre_mine challenge_data) (no_pre_mine_hour challenge_data)
    (Some (latest_submission challenge_data)) (issued_at challenge_data)
    None None None.

(** The body of the loop of [fetch_challenges] over [addresses]. *)
Definition fetch_address (db : Store) (address : string) : M Store :=
  r <- call (HttpGet challenge_url) (requests_get challenge_url) ;;
  match r with
  | GetRequestException => print (MsgFetchError address) ;;; ret db
  | GetUncaught e => raise e
  | GetOk challenge_data =>
      let new_challenge := new_challenge_of challenge_data in
      match dict_get address db with
      | Some entry =>
          let challenge_queue := get_default (challenge_queue entry) [] in
          if negb (any_id (challengeId new_challenge) challenge_queue)
          then
            let db' :=
              dict_set address
                (set_challenge_queue entry
                   (sort_by_id (challenge_queue ++ [new_challenge]))) db in
            print (MsgNewChallenge address (challengeId new_challenge)) ;;;
            ret db'
          else
            print (MsgChallengeExists (challengeId new_challenge) address) ;;;
            ret db
      | None => print (MsgAddressSkipped address) ;;; ret db
      end
  end.

Definition fetch_challenges (addresses : list string) : M unit :=
  print MsgFetching ;;;
  db <- load_db ;;
  db' <- for_each fetch_address addresses db ;;
  save_db db'.

(** *** SolveDriver *)

Definition solver_command (address : string) (challenge : Challenge)
    (latest : string) : list string :=
  [ RUST_SOLVER_PATH;
    "--address"; address;
    "--challenge-id"; challengeId challenge;
    "--difficulty"; difficulty challenge;
    "--no-pre-mine"; noPreMine challenge;
    "--latest-submission"; latest;
    "--no-pre-mine-hour"; noPreMineHour challenge ].

Definition submit_url (address id nonce : string) : string :=
  ("https://sm.midnight.gd/api/solution/" ++ address ++ "/" ++ id ++ "/"
     ++ nonce)%string.

(** Lines 166-185, after the solver has returned [nonce]. *)
Definition submit (address : string) (challenge : Challenge)
    (nonce : string) : M Challenge :=
  let url := submit_url address (challengeId challenge) nonce in
  p <- call (HttpPost url) (requests_post url) ;;
  match p with
  | PostRequestException => print MsgSubmitError ;;; ret challenge
  | PostException => print MsgUnexpected ;;; ret challenge
  | PostOk body =>
      print (MsgSubmitted (challengeId challenge)) ;;;
      t <- now_utc ;;
      let solved :=
        set_salt
          (set_solvedAt (set_status challenge "solved") (isoformat t))
          nonce in
      match body with
      | BodyUndecodable => ret solved
      | BodyObject (Some h) => ret (set_hash solved h)
      | BodyObject None => ret solved
      | BodyOther => print MsgUnexpected ;;; ret solved
      end
  end.

(** The body of the loop over one queue (lines 130-192). *)
Definition solve_challenge (now : Z) (address : string)
    (challenge : Challenge) : M Challenge :=
  if String.eqb (status challenge) "available" then
    match latestSubmission challenge with
    | None => raise (KeyError "latestSubmission")
    | Some latest =>
        match fromisoformat latest with
        | None => raise ValueError
        | Some latest_submission =>
            if (now >? latest_submission)%Z then
              print (MsgExpired (challengeId challenge) address) ;;;
              ret (set_status challenge "expired")
            else
              print (MsgAttempt (challengeId challenge) address) ;;;
              let command := solver_command address challenge latest in
              r <- call (RunSolver command) (subprocess_run command) ;;
              match r with
              | SolverCalledProcessError stderr =>
                  print (MsgSolverError stderr) ;;; ret challenge
              | SolverException => print MsgUnexpected ;;; ret challenge
              | SolverCompleted stdout =>
                  let nonce := strip stdout in
                  print (MsgFoundNonce nonce) ;;;
                  submit address challenge nonce
              end
        end
    end
  else ret challenge.

(** The body of the loop over [db.items()]. *)
Definition solve_address (now : Z) (item : string * AddressEntry)
  : M (string * AddressEntry) :=
  let (address, data) := item in
  match challenge_queue data with
  | None => ret (address, data)
  | Some challenges =>
      challenges' <- for_each_item (solve_challenge now address) challenges ;;
      ret (address, set_challenge_queue data challenges')
  end.

Definition solve_challenges : M unit :=
  print MsgSolving ;;;
  db <- load_db ;;
  now <- now_utc ;;
  db' <- for_each_item (solve_address now) db ;;
  save_db db'.

(** *** Orchestrator *)

Definition main (command : Command) : M unit :=
  match command with
  | CmdInit files => init_db files
  | CmdFetch =>
      db <- load_db ;;
      match db with
      | [] => print MsgNotInitialized
      | _ => fetch_challenges (keys db)
      end
  | CmdSolve =>
      db <- load_db ;;
      match db with
      | [] => print MsgNotInitialized
      | _ => solve_challenges
      end
  end.

(** ** Vocabulary of the properties *)

(** What [load_db] returns for a document, and what it prints. *)
Definition stored (d : Document) : Store :=
  match d with
  | Decodes db => db
  | Missing | Undecodable => []
  end.

Definition load_warning (d : Document) : list Event :=
  match d with
  | Undecodable => [Print MsgDbWarning]
  | Missing | Decodes _ => []
  end.

(** The records of the file whose id the queue does not hold yet. *)
Definition fresh_of (existing_queue incoming : list Challenge)
  : list Challenge :=
  let existing_ids := map challengeId existing_queue in
  filter (fun c => negb (id_in (challengeId c) existing_ids)) incoming.

(** One run of the program: the state it leaves behind. *)
Definition run_command (s : State) (command : Command) : State :=
  snd (main command s).

(** Successive runs. *)
Definition run_commands (commands : list Command) (s : State) : State :=
  fold_left run_command commands s.

Definition import_or_fetch (command : Command) : bool :=
  match command with
  | CmdInit _ | CmdFetch => true
  | CmdSolve => false
  end.

(** Every receipt file that can be read lists its challenges in ascending
    order of id, each id once. *)
Definition receipts_ok : Prop :=
  forall w file_path data,
    read_json w file_path = FileJson data ->
    queue_ok (get_default (file_challenge_queue data) []).

(** The steps a record may take: none, or out of [available] into
    [expired] or [solved]. *)
Definition record_evolves (c c' : Challenge) : Prop :=
  c' = c \/
  (status c = "available" /\ (status c' = "expired" \/ status c' = "solved")).

(** Every record of [db] is still in [db'], under the same address, after
    a step allowed by [record_evolves]; [db'] may hold more records. *)
Definition store_evolves (db db' : Store) : Prop :=
  forall address entry,
    dict_get address db = Some entry ->
    exists entry' q added,
      dict_get address db' = Some entry' /\
      Forall2 record_evolves (get_default (challenge_queue entry) []) q /\
      Permutation (get_default (challenge_queue entry') []) (q ++ added).


(** What a solve pass cannot change: the addresses in their order, each
    with its receipt and the ids of its queue in their order. *)
Definition skeleton (db : Store)
  : list (string * option Receipt * list string) :=
  map (fun kv =>
         (fst kv, registration_receipt (snd kv),
          map challengeId (get_default (challenge_queue (snd kv)) [])))
    db.

(** Lines 173-179: the three fields a successful submission writes. *)
Definition mark_solved (c : Challenge) (t : Z) (nonce : string) : Challenge :=
  set_salt (set_solvedAt (set_status c "solved") (isoformat t)) nonce.

(** No record of the store is [available]. *)
Definition no_available (db : Store) : bool :=
  forallb
    (fun kv =>
       forallb (fun c => negb (String.eqb (status c) "available"))
         (get_default (challenge_queue (snd kv)) []))
    db.

(** The store already holds, under the address of the file, every id the
    file lists; a file that cannot be read, or names no address, has
    nothing to hold. *)
Definition absorbed (w : World) (db : Store) (file_path : string) : Prop :=
  match read_json w file_path with
  | FileJson data =>
      match truthy (receipt_address data) with
      | Some address =>
          match dict_get address db with
          | Some entry =>
              fresh_of (get_default (challenge_queue entry) [])
                (get_default (file_challenge_queue data) []) = []
          | None => False
          end
      | None => True
      end
  | FileMissing | FileUndecodable | FileRaises => True
  end.

(** The file is missing, is not JSON, cannot be read, or names no
    address. *)
Definition unusable (w : World) (file_path : string) : bool :=
  match read_json w file_path with
  | FileJson data =>
      match truthy (receipt_address data) with
      | Some _ => false
      | None => true
      end
  | FileMissing | FileUndecodable | FileRaises => true
  end.


(** The queue of [address], when the store knows it, holds the id of the
    challenge the service hands out. *)
Definition has_challenge (challenge_data : ChallengeData) (db : Store)
    (address : string) : Prop :=
  match dict_get address db with
  | Some entry =>
      any_id (challenge_id challenge_data)
        (get_default (challenge_queue entry) []) = true
  | None => True
  end.


(** What fetching [challenge_data] makes of the entry of a known
    address: nothing when its queue holds the id, else the queue with the
    new record, sorted. *)
Definition fetched (challenge_data : ChallengeData) (entry : AddressEntry)
  : AddressEntry :=
  let q := get_default (challenge_queue entry) [] in
  if any_id (challenge_id challenge_data) q
  then entry
  else set_challenge_queue entry
         (sort_by_id (q ++ [new_challenge_of challenge_data])).

(** ** Properties *)

(** *** The sort *)

Lemma insert_by_id_perm (c : Challenge) (q : list Challenge) :
  Permutation (insert_by_id c q) (c :: q).
Proof.
  induction q as [|d q IH]; simpl.
  - apply Permutation_refl.
  - destruct (String.leb (challengeId c) (challengeId d)).
    + apply Permutation_refl.
    + eapply perm_trans; [apply perm_skip, IH | apply perm_swap].
Qed.

Lemma sort_by_id_perm (q : list Challenge) : Permutation (sort_by_id q) q.
Proof.
  induction q as [|c q IH]; simpl.
  - constructor.
  - eapply perm_trans; [apply insert_by_id_perm | apply perm_skip, IH].
Qed.

Lemma insert_by_id_sorted (c : Challenge) (q : list Challenge) :
  queue_sorted q -> queue_sorted (insert_by_id c q).
Proof.
  unfold queue_sorted.
  induction q as [|d q IH]; simpl; intros Hs.
  - repeat constructor.
  - destruct (String.leb (challengeId c) (challengeId d)) eqn:Hcd.
    + constructor; [exact Hs | constructor; exact Hcd].
    + inversion Hs as [|? ? Hq Hhd]; subst.
      constructor; [apply IH; exact Hq |].
      assert (Hdc : id_le d c).
      { unfold id_le.
        destruct (String.leb_total (challengeId c) (challengeId d)) as [H|H];
          [congruence | exact H]. }
      destruct q as [|e q']; simpl.
      * constructor; exact Hdc.
      * destruct (String.leb (challengeId c) (challengeId e)).
        -- constructor; exact Hdc.
        -- inversion Hhd; subst. constructor; assumption.
Qed.

Lemma sort_by_id_sorted (q : list Challenge) : queue_sorted (sort_by_id q).
Proof.
  induction q as [|c q IH]; simpl.
  - constructor.
  - apply insert_by_id_sorted, IH.
Qed.

Lemma queue_unique_perm (q q' : list Challenge) :
  Permutation q q' -> queue_unique q -> queue_unique q'.
Proof.
  unfold queue_unique. intros Hp Hu.
  eapply Permutation_NoDup; [apply Permutation_map, Hp | exact Hu].
Qed.

Lemma sort_by_id_ok (q : list Challenge) :
  queue_unique q -> queue_ok (sort_by_id q).
Proof.
  intros Hu. split.
  - apply sort_by_id_sorted.
  - eapply queue_unique_perm; [| exact Hu].
    apply Permutation_sym, sort_by_id_perm.
Qed.

Lemma id_in_spec (x : string) (ids : list string) :
  id_in x ids = true <-> In x ids.
Proof.
  unfold id_in. rewrite existsb_exists. split.
  - intros [y [Hy He]]. apply String.eqb_eq in He. subst. exact Hy.
  - intros Hx. exists x. split; [exact Hx | apply String.eqb_refl].
Qed.

Lemma any_id_spec (x : string) (q : list Challenge) :
  any_id x q = true <-> In x (map challengeId q).
Proof.
  unfold any_id. rewrite existsb_exists, in_map_iff. split.
  - intros [c [Hc He]]. apply String.eqb_eq in He. exists c. auto.
  - intros [c [He Hc]]. exists c. split; [exact Hc | apply String.eqb_eq, He].
Qed.

Lemma any_id_perm (x : string) (q q' : list Challenge) :
  Permutation q q' -> any_id x q = any_id x q'.
Proof.
  intros Hp.
  destruct (any_id x q) eqn:H1, (any_id x q') eqn:H2; try reflexivity.
  - apply any_id_spec in H1.
    assert (H : In x (map challengeId q'))
      by (eapply Permutation_in; [apply Permutation_map, Hp | exact H1]).
    apply any_id_spec in H. congruence.
  - apply any_id_spec in H2.
    assert (H : In x (map challengeId q))
      by (eapply Permutation_in;
          [apply Permutation_map, Permutation_sym, Hp | exact H2]).
    apply any_id_spec in H. congruence.
Qed.

(** The executable checks decide the invariant. *)
Lemma is_sorted_by_id_spec (q : list Challenge) :
  is_sorted_by_id q = true <-> queue_sorted q.
Proof.
  unfold queue_sorted.
  induction q as [|c q IH].
  - simpl. split; [constructor | reflexivity].
  - destruct q as [|d q'].
    + simpl. split; [repeat constructor | reflexivity].
    + change (is_sorted_by_id (c :: d :: q'))
        with (String.leb (challengeId c) (challengeId d)
              && is_sorted_by_id (d :: q')).
      rewrite andb_true_iff, IH. split.
      * intros [Hcd Hs]. constructor; [exact Hs | constructor; exact Hcd].
      * intros Hs. inversion Hs as [|? ? Hq Hhd]; subst.
        inversion Hhd; subst. split; assumption.
Qed.

Lemma has_unique_ids_spec (q : list Challenge) :
  has_unique_ids q = true <-> queue_unique q.
Proof.
  unfold queue_unique.
  induction q as [|c q IH]; simpl.
  - split; [constructor | reflexivity].
  - rewrite andb_true_iff, negb_true_iff, IH. split.
    + intros [Hn Hu]. constructor; [| exact Hu].
      intros Hin. apply any_id_spec in Hin. congruence.
    + intros Hnd. inversion Hnd as [|? ? Hn Hu]; subst. split; [| exact Hu].
      destruct (any_id (challengeId c) q) eqn:Ha; [| reflexivity].
      apply any_id_spec in Ha. contradiction.
Qed.

(** *** The dictionary *)

Lemma dict_get_set_same {V : Type} (k : string) (v : V)
    (d : list (string * V)) :
  dict_get k (dict_set k v d) = Some v.
Proof.
  induction d as [|[k' v'] d IH]; simpl.
  - rewrite String.eqb_refl. reflexivity.
  - destruct (String.eqb k k') eqn:E; simpl; rewrite ?E, ?String.eqb_refl;
      auto.
Qed.

Lemma dict_get_set_other {V : Type} (k k0 : string) (v : V)
    (d : list (string * V)) :
  k0 <> k -> dict_get k0 (dict_set k v d) = dict_get k0 d.
Proof.
  intros Hne.
  assert (E0 : String.eqb k0 k = false) by (apply String.eqb_neq, Hne).
  induction d as [|[k' v'] d IH]; simpl.
  - rewrite E0. reflexivity.
  - destruct (String.eqb k k') eqn:E; simpl.
    + apply String.eqb_eq in E. subst k'. rewrite E0. reflexivity.
    + rewrite IH. reflexivity.
Qed.

Lemma keys_dict_set_known {V : Type} (k : string) (v v0 : V)
    (d : list (string * V)) :
  dict_get k d = Some v0 -> keys (dict_set k v d) = keys d.
Proof.
  unfold keys.
  induction d as [|[k' v'] d IH]; simpl; [discriminate |].
  destruct (String.eqb k k') eqn:E; simpl.
  - apply String.eqb_eq in E. subst. reflexivity.
  - intros H. rewrite IH by exact H. reflexivity.
Qed.

Lemma dict_get_in {V : Type} (k : string) (v : V) (d : list (string * V)) :
  dict_get k d = Some v -> In (k, v) d.
Proof.
  induction d as [|[k' v'] d IH]; simpl; [discriminate |].
  destruct (String.eqb k k') eqn:E.
  - apply String.eqb_eq in E. intros H. inversion H. subst. left. reflexivity.
  - intros H. right. apply IH, H.
Qed.

Lemma store_ok_get (db : Store) (address : string) (entry : AddressEntry) :
  store_ok db -> dict_get address db = Some entry ->
  queue_ok (get_default (challenge_queue entry) []).
Proof.
  unfold store_ok. intros Hok Hget.
  apply dict_get_in in Hget.
  rewrite Forall_forall in Hok. apply (Hok _ Hget).
Qed.

Lemma store_ok_set (db : Store) (address : string) (entry : AddressEntry) :
  store_ok db -> queue_ok (get_default (challenge_queue entry) []) ->
  store_ok (dict_set address entry db).
Proof.
  unfold store_ok. intros Hok He.
  induction db as [|[k' v'] db IH]; simpl.
  - constructor; [exact He | constructor].
  - inversion Hok; subst.
    destruct (String.eqb address k'); constructor; auto.
Qed.


(** *** The monad and the loops *)

Ltac munfold :=
  unfold bind, ret, raise, print, emit, call, now_utc, open_json in *.

Lemma load_db_spec (s : State) :
  load_db s =
  (Returned (stored (disk s)),
   mkState (disk s) (world s) (out s ++ load_warning (disk s))).
Proof.
  unfold load_db. destruct s as [d w o]; simpl.
  destruct d; munfold; simpl; rewrite ?app_nil_r; reflexivity.
Qed.

(** An invariant of the loop body is an invariant of the loop. *)
Lemma for_each_inv {A S : Type} (P : S -> Prop) (body : S -> A -> M S) :
  (forall acc x s acc' s',
      P acc -> body acc x s = (Returned acc', s') -> P acc') ->
  forall l acc s acc' s',
    P acc -> for_each body l acc s = (Returned acc', s') -> P acc'.
Proof.
  intros Hbody l.
  induction l as [|x l IH]; simpl; intros acc s acc' s' HP Hrun.
  - munfold. inversion Hrun; subst. exact HP.
  - unfold bind in Hrun.
    destruct (body acc x s) as [[acc1|e] s1] eqn:Hb; [| discriminate].
    eapply IH; [eapply Hbody; eauto | exact Hrun].
Qed.

(** What the loop body leaves alone, the loop leaves alone. *)
Lemma for_each_frame {A S X : Type} (proj : State -> X)
    (body : S -> A -> M S) :
  (forall acc x s, proj (snd (body acc x s)) = proj s) ->
  forall l acc s, proj (snd (for_each body l acc s)) = proj s.
Proof.
  intros Hbody l.
  induction l as [|x l IH]; simpl; intros acc s.
  - reflexivity.
  - unfold bind. specialize (Hbody acc x s).
    destruct (body acc x s) as [[acc1|e] s1]; simpl in *.
    + rewrite IH. exact Hbody.
    + exact Hbody.
Qed.

Lemma for_each_item_frame {A X : Type} (proj : State -> X)
    (body : A -> M A) :
  (forall x s, proj (snd (body x s)) = proj s) ->
  forall l s, proj (snd (for_each_item body l s)) = proj s.
Proof.
  intros Hbody l.
  induction l as [|x l IH]; simpl; intros s.
  - reflexivity.
  - unfold bind. specialize (Hbody x s).
    destruct (body x s) as [[x1|e] s1]; simpl in *; [| exact Hbody].
    specialize (IH s1).
    destruct (for_each_item body l s1) as [[l1|e] s2]; simpl in *;
      congruence.
Qed.

(** A loop that returns has run its body on every element in turn. *)
Lemma for_each_item_Forall2 {A : Type} (body : A -> M A) (l : list A) :
  forall l' s s',
    for_each_item body l s = (Returned l', s') ->
    Forall2 (fun x x' => exists s1 s2, body x s1 = (Returned x', s2)) l l'.
Proof.
  induction l as [|x l IH]; simpl; intros l' s s' Hrun.
  - munfold. inversion Hrun; subst. constructor.
  - unfold bind in Hrun.
    destruct (body x s) as [[x1|e] s1] eqn:Hb; [| discriminate].
    destruct (for_each_item body l s1) as [[l1|e] s2] eqn:Hl; [| discriminate].
    munfold. inversion Hrun; subst.
    constructor; [exists s, s1; exact Hb | eapply IH; exact Hl].
Qed.

(** *** The loop bodies, case by case *)

Lemma append_new_spec (existing_ids : list string)
    (incoming existing_queue : list Challenge) (n : nat) :
  let fresh :=
    filter (fun c => negb (id_in (challengeId c) existing_ids)) incoming in
  append_new existing_ids incoming existing_queue n =
  (existing_queue ++ fresh, n + length fresh).
Proof.
  revert existing_queue n.
  induction incoming as [|c inc IH]; simpl; intros q n.
  - rewrite app_nil_r, Nat.add_0_r. reflexivity.
  - destruct (id_in (challengeId c) existing_ids); simpl.
    + apply IH.
    + rewrite IH, <- app_assoc. simpl. f_equal. lia.
Qed.

(** [init_file] never raises and touches neither the document nor the
    world; the store it returns is one of three. *)
Lemma init_file_cases (db : Store) (file_path : string) (s : State) :
  exists db' o,
    init_file db file_path s =
      (Returned db', mkState (disk s) (world s) (out s ++ o)) /\
    (db' = db \/
     (exists data address,
         read_json (world s) file_path = FileJson data /\
         truthy (receipt_address data) = Some address /\
         dict_get address db = None /\
         db' = dict_set address
                 (mkEntry (file_registration_receipt data)
                    (Some (get_default (file_challenge_queue data) []))) db) \/
     (exists data address entry,
         read_json (world s) file_path = FileJson data /\
         truthy (receipt_address data) = Some address /\
         dict_get address db = Some entry /\
         fresh_of (get_default (challenge_queue entry) [])
           (get_default (file_challenge_queue data) []) <> [] /\
         db' = dict_set address
                 (set_challenge_queue entry
                    (sort_by_id
                       (get_default (challenge_queue entry) [] ++
                        fresh_of (get_default (challenge_queue entry) [])
                          (get_default (file_challenge_queue data) []))))
                 db)).
Proof.
  unfold init_file. munfold. simpl.
  destruct (read_json (world s) file_path) as [| | |data] eqn:Hread; simpl;
    try (eexists _, [_]; split; [reflexivity | left; reflexivity]).
  destruct (truthy (receipt_address data)) as [address|] eqn:Haddr; simpl;
    try (eexists _, [_]; split; [reflexivity | left; reflexivity]).
  destruct (dict_get address db) as [entry|] eqn:Hget; simpl.
  - rewrite append_new_spec. simpl.
    fold (fresh_of (get_default (challenge_queue entry) [])
            (get_default (file_challenge_queue data) [])).
    destruct (fresh_of (get_default (challenge_queue entry) [])
                (get_default (file_challenge_queue data) [])) as [|c l] eqn:Hf;
      simpl.
    + eexists _, [_; _]. rewrite <- app_assoc. simpl.
      split; [reflexivity | left; reflexivity].
    + eexists _, [_; _]. rewrite <- app_assoc. simpl.
      split; [reflexivity |].
      right; right. exists data, address, entry.
      split; [reflexivity |]. split; [exact Haddr |]. split; [exact Hget |].
      rewrite Hf. split; [discriminate | reflexivity].
  - eexists _, [_]. split; [reflexivity |].
    right; left. exists data, address. auto.
Qed.

(** [fetch_address] leaves the document alone; when it returns, the store
    is the old one or has one record more under a known address. *)
Lemma fetch_address_cases (db : Store) (address : string) (s : State)
    (db' : Store) (s' : State) :
  fetch_address db address s = (Returned db', s') ->
  db' = db \/
  (exists entry challenge_data w,
      requests_get challenge_url (world s) = (GetOk challenge_data, w) /\
      dict_get address db = Some entry /\
      any_id (challenge_id challenge_data)
        (get_default (challenge_queue entry) []) = false /\
      db' = dict_set address
              (set_challenge_queue entry
                 (sort_by_id
                    (get_default (challenge_queue entry) [] ++
                     [new_challenge_of challenge_data]))) db).
Proof.
  unfold fetch_address. munfold. simpl.
  destruct (requests_get challenge_url (world s)) as [[cd| |e] w] eqn:Hget;
    simpl; intros Hrun.
  - destruct (dict_get address db) as [entry|] eqn:Hd; simpl in Hrun.
    + destruct (any_id (challenge_id cd)
                  (get_default (challenge_queue entry) [])) eqn:Hany;
        simpl in Hrun; inversion Hrun; subst.
      * left. reflexivity.
      * right. exists entry, cd, w. auto.
    + inversion Hrun. left. reflexivity.
  - inversion Hrun. left. reflexivity.
  - discriminate.
Qed.

Lemma fetch_address_disk (db : Store) (address : string) (s : State) :
  disk (snd (fetch_address db address s)) = disk s.
Proof.
  unfold fetch_address. munfold. simpl.
  destruct (requests_get challenge_url (world s)) as [[cd| |e] w]; simpl;
    try reflexivity.
  destruct (dict_get address db) as [entry|]; simpl; try reflexivity.
  destruct (any_id (challenge_id cd) (get_default (challenge_queue entry) []));
    reflexivity.
Qed.


(** *** The commands: what ends up in the document *)

Lemma for_each_init_file (json_files : list string) :
  forall db s, exists db' o,
    for_each init_file json_files db s =
    (Returned db', mkState (disk s) (world s) (out s ++ o)).
Proof.
  induction json_files as [|f l IH]; simpl; intros db s.
  - exists db, []. rewrite app_nil_r. destruct s; reflexivity.
  - unfold bind.
    destruct (init_file_cases db f s) as [db1 [o1 [Hrun _]]].
    rewrite Hrun.
    destruct (IH db1 (mkState (disk s) (world s) (out s ++ o1)))
      as [db2 [o2 Hrest]].
    rewrite Hrest. simpl. exists db2, (o1 ++ o2).
    rewrite app_assoc. reflexivity.
Qed.

(** [init] always saves: the document is the store the loop built. *)
Lemma init_db_spec (json_files : list string) (s : State) :
  exists db' s0 s1 o,
    world s0 = world s /\
    for_each init_file json_files (stored (disk s)) s0 = (Returned db', s1) /\
    init_db json_files s =
      (Returned tt, mkState (Decodes db') (world s) (out s ++ o)).
Proof.
  unfold init_db, bind, print, emit, save_db.
  rewrite load_db_spec. simpl.
  match goal with
  | |- context [for_each init_file json_files ?db ?s0] =>
      destruct (for_each_init_file json_files db s0) as [db' [o Hrun]];
      exists db', s0, (mkState (disk s0) (world s0) (out s0 ++ o))
  end.
  rewrite Hrun. simpl. eexists. split; [reflexivity |].
  split; [reflexivity |].
  rewrite <- !app_assoc. reflexivity.
Qed.

Lemma run_init (files : list string) (s : State) :
  exists db' s0 s1,
    disk (run_command s (CmdInit files)) = Decodes db' /\
    world (run_command s (CmdInit files)) = world s /\
    world s0 = world s /\
    for_each init_file files (stored (disk s)) s0 = (Returned db', s1).
Proof.
  unfold run_command, main.
  destruct (init_db_spec files s) as [db' [s0 [s1 [o [Hw [Hrun Heq]]]]]].
  rewrite Heq. simpl. exists db', s0, s1. auto.
Qed.

(** [fetch_challenges] saves the store its loop built, or, when a call
    raised, leaves the document as it was. *)
Lemma fetch_challenges_disk (addresses : list string) (s : State) :
  disk (snd (fetch_challenges addresses s)) = disk s \/
  exists db' s0 s1,
    disk (snd (fetch_challenges addresses s)) = Decodes db' /\
    for_each fetch_address addresses (stored (disk s)) s0 =
      (Returned db', s1).
Proof.
  unfold fetch_challenges, bind, print, emit, save_db.
  rewrite load_db_spec. simpl.
  match goal with
  | |- context [for_each fetch_address addresses ?db ?s0] =>
      pose proof (for_each_frame disk fetch_address fetch_address_disk
                    addresses db s0) as Hd;
      destruct (for_each fetch_address addresses db s0) as [[db'|e] s1] eqn:Hrun
  end; simpl in *.
  - right. eauto.
  - left. exact Hd.
Qed.

Lemma run_fetch (s : State) :
  disk (run_command s CmdFetch) = disk s \/
  exists db' addresses s0 s1,
    disk (run_command s CmdFetch) = Decodes db' /\
    for_each fetch_address addresses (stored (disk s)) s0 =
      (Returned db', s1).
Proof.
  unfold run_command, main, bind.
  rewrite load_db_spec.
  destruct (stored (disk s)) as [|kv db] eqn:Hst.
  - left. reflexivity.
  - match goal with
    | |- context [fetch_challenges ?a ?s0] =>
        destruct (fetch_challenges_disk a s0) as [H | [db' [s1 [s2 [H1 H2]]]]]
    end.
    + left. exact H.
    + right. cbn [disk] in H2. rewrite Hst in H2.
      exists db'. eexists. exists s1, s2. split; [exact H1 | exact H2].
Qed.

(** *** Fetch *)

Lemma fetch_address_keys (db : Store) (address : string) (s : State)
    (db' : Store) (s' : State) :
  fetch_address db address s = (Returned db', s') -> keys db' = keys db.
Proof.
  intros Hrun.
  destruct (fetch_address_cases _ _ _ _ _ Hrun)
    as [-> | [entry [cd [w [_ [Hget [_ ->]]]]]]].
  - reflexivity.
  - eapply keys_dict_set_known. exact Hget.
Qed.

(** C8. Fetch never creates an address: whatever list of addresses
    [fetch_challenges] is given, and whatever the remote service answers,
    the addresses of the persisted store are the same after the pass as
    before it; the same holds for the [fetch] command. *)
Theorem fetch_never_creates_address (addresses : list string) (s : State) :
  keys (stored (disk (snd (fetch_challenges addresses s)))) =
    keys (stored (disk s)) /\
  keys (stored (disk (run_command s CmdFetch))) = keys (stored (disk s)).
Proof.
  split.
  - destruct (fetch_challenges_disk addresses s)
      as [-> | [db' [s0 [s1 [-> Hrun]]]]]; [reflexivity |].
    simpl.
    eapply (for_each_inv (fun db => keys db = keys (stored (disk s))));
      [| reflexivity | exact Hrun].
    intros acc x s2 acc' s2' Hacc Hb.
    rewrite (fetch_address_keys _ _ _ _ _ Hb). exact Hacc.
  - destruct (run_fetch s) as [-> | [db' [a [s0 [s1 [-> Hrun]]]]]];
      [reflexivity |].
    simpl.
    eapply (for_each_inv (fun db => keys db = keys (stored (disk s))));
      [| reflexivity | exact Hrun].
    intros acc x s2 acc' s2' Hacc Hb.
    rewrite (fetch_address_keys _ _ _ _ _ Hb). exact Hacc.
Qed.

(** *** The entry point *)

(** C10. When the loaded store is empty -- no document, an undecodable
    document, or a document without addresses -- the [fetch] and the
    [solve] command print the "not initialized" message and return: the
    document and the world are untouched and nothing but [load_db]'s
    warning and that message is logged. *)
Theorem empty_store_rejected (s : State) :
  stored (disk s) = [] ->
  let rejected :=
    (Returned tt,
     mkState (disk s) (world s)
       (out s ++ load_warning (disk s) ++ [Print MsgNotInitialized])) in
  main CmdFetch s = rejected /\ main CmdSolve s = rejected.
Proof.
  intros Hempty rejected. subst rejected.
  unfold main, bind. rewrite load_db_spec, Hempty.
  unfold print, emit. simpl. rewrite <- app_assoc. split; reflexivity.
Qed.


(** *** The queue invariant *)

(** Dropping records keeps the ids distinct. *)
Lemma filter_unique (keep : Challenge -> bool) (q : list Challenge) :
  queue_unique q -> queue_unique (filter keep q).
Proof.
  unfold queue_unique.
  induction q as [|c q IH]; simpl; intros Hnd; [constructor |].
  apply NoDup_cons_iff in Hnd. destruct Hnd as [Hfresh Hrest].
  destruct (keep c); simpl; [| apply IH, Hrest].
  constructor; [| apply IH, Hrest].
  intros Hin. apply Hfresh.
  apply in_map_iff in Hin. destruct Hin as [d [Hd Hin]].
  apply filter_In in Hin.
  apply in_map_iff. exists d. tauto.
Qed.

Lemma fresh_of_unique (q incoming : list Challenge) :
  queue_unique q -> queue_unique incoming ->
  queue_unique (q ++ fresh_of q incoming).
Proof.
  unfold queue_unique, fresh_of. intros Hq Hinc.
  rewrite map_app. apply NoDup_app.
  - exact Hq.
  - apply (filter_unique _ _ Hinc).
  - intros a Ha Hin.
    apply in_map_iff in Hin. destruct Hin as [c [Hc Hin]].
    apply filter_In in Hin. destruct Hin as [_ Hp].
    apply negb_true_iff in Hp.
    apply id_in_spec in Ha. congruence.
Qed.

Lemma append_one_unique (q : list Challenge) (c : Challenge) :
  queue_unique q -> any_id (challengeId c) q = false ->
  queue_unique (q ++ [c]).
Proof.
  unfold queue_unique. intros Hq Hany.
  rewrite map_app. apply NoDup_app.
  - exact Hq.
  - simpl. constructor; [intros [] | constructor].
  - intros a Ha [Hin | []]. subst a.
    apply any_id_spec in Ha. congruence.
Qed.

Lemma init_file_ok (db : Store) (file_path : string) (s : State)
    (db' : Store) (s' : State) :
  receipts_ok -> store_ok db ->
  init_file db file_path s = (Returned db', s') -> store_ok db'.
Proof.
  intros Hfiles Hok Hrun.
  destruct (init_file_cases db file_path s) as [db1 [o [Heq Hcases]]].
  rewrite Heq in Hrun. inversion Hrun; subst db1; clear Hrun.
  destruct Hcases as [-> | [[data [address [Hread [_ [Hget ->]]]]]
                           | [data [address [entry [Hread [_ [Hget [_ ->]]]]]]]]].
  - exact Hok.
  - apply store_ok_set; [exact Hok |]. simpl.
    eapply Hfiles. exact Hread.
  - apply store_ok_set; [exact Hok |]. simpl.
    apply sort_by_id_ok, fresh_of_unique.
    + apply (store_ok_get _ _ _ Hok Hget).
    + apply (Hfiles _ _ _ Hread).
Qed.

Lemma fetch_address_ok (db : Store) (address : string) (s : State)
    (db' : Store) (s' : State) :
  store_ok db ->
  fetch_address db address s = (Returned db', s') -> store_ok db'.
Proof.
  intros Hok Hrun.
  destruct (fetch_address_cases _ _ _ _ _ Hrun)
    as [-> | [entry [cd [w [_ [Hget [Hany ->]]]]]]].
  - exact Hok.
  - apply store_ok_set; [exact Hok |]. simpl.
    apply sort_by_id_ok, append_one_unique.
    + apply (store_ok_get _ _ _ Hok Hget).
    + exact Hany.
Qed.

(** C1, as the code has it.  If every queue of the persisted store is in
    ascending order of [challengeId] without a duplicate id, and every
    receipt file lists its challenges so, then after any sequence of
    [init] and [fetch] commands every queue of the persisted store is
    still in ascending order without a duplicate id. *)
Theorem import_fetch_keep_queues_ok (commands : list Command) (s : State) :
  receipts_ok ->
  forallb import_or_fetch commands = true ->
  store_ok (stored (disk s)) ->
  store_ok (stored (disk (run_commands commands s))).
Proof.
  intros Hfiles. revert s.
  induction commands as [|command commands IH]; simpl; intros s Hcmds Hok.
  - exact Hok.
  - apply andb_true_iff in Hcmds. destruct Hcmds as [Hcmd Hcmds].
    apply IH; [exact Hcmds |].
    destruct command as [files | |]; [| | discriminate].
    + destruct (run_init files s) as [db' [s0 [s1 [-> [_ [_ Hrun]]]]]].
      simpl.
      eapply (for_each_inv store_ok); [| exact Hok | exact Hrun].
      intros acc x s2 acc' s2'. apply init_file_ok, Hfiles.
    + destruct (run_fetch s) as [-> | [db' [a [s0 [s1 [-> Hrun]]]]]];
        [exact Hok |].
      simpl.
      eapply (for_each_inv store_ok); [| exact Hok | exact Hrun].
      intros acc x s2 acc' s2'. apply fetch_address_ok.
Qed.


(** *** Import is idempotent *)

Lemma fresh_of_nil (q incoming : list Challenge) :
  (forall c, In c incoming -> In (challengeId c) (map challengeId q)) ->
  fresh_of q incoming = [].
Proof.
  unfold fresh_of. intros Hall.
  induction incoming as [|c inc IH]; simpl; [reflexivity |].
  assert (Hc : id_in (challengeId c) (map challengeId q) = true)
    by (apply id_in_spec, Hall; left; reflexivity).
  rewrite Hc. simpl. apply IH. intros d Hd. apply Hall. right. exact Hd.
Qed.

(** After the merge the queue holds every id of the file. *)
Lemma merged_holds_all (q incoming : list Challenge) :
  forall c, In c incoming ->
    In (challengeId c)
      (map challengeId (sort_by_id (q ++ fresh_of q incoming))).
Proof.
  intros c Hc.
  eapply Permutation_in.
  - apply Permutation_map, Permutation_sym, sort_by_id_perm.
  - rewrite map_app. apply in_or_app.
    destruct (id_in (challengeId c) (map challengeId q)) eqn:Hin.
    + left. apply id_in_spec, Hin.
    + right. apply in_map. unfold fresh_of. apply filter_In.
      split; [exact Hc | rewrite Hin; reflexivity].
Qed.

(** The store [init_file] returns depends on the world only. *)
Lemma init_file_world_only (db : Store) (file_path : string) (s s' : State) :
  world s' = world s ->
  fst (init_file db file_path s') = fst (init_file db file_path s).
Proof.
  intros Hw.
  destruct (init_file_cases db file_path s) as [d [o [Hrun _]]].
  unfold init_file in *. munfold. simpl in *. rewrite Hw.
  destruct (read_json (world s) file_path) as [| | |data]; simpl;
    try reflexivity.
  destruct (truthy (receipt_address data)) as [address|]; simpl;
    try reflexivity.
  destruct (dict_get address db) as [entry|]; simpl; try reflexivity.
  destruct (append_new _ _ _ _) as [q' n]. simpl.
  destruct (0 <? n)%nat; reflexivity.
Qed.

(** Reading the same file again adds nothing. *)
Lemma init_file_idem (db : Store) (file_path : string) (s : State)
    (db1 : Store) (s1 s' : State) :
  init_file db file_path s = (Returned db1, s1) ->
  world s' = world s ->
  fst (init_file db1 file_path s') = Returned db1.
Proof.
  intros Hrun Hw.
  destruct (init_file_cases db file_path s) as [d [o [Heq Hcases]]].
  rewrite Heq in Hrun. inversion Hrun; subst d; clear Hrun.
  destruct Hcases
    as [-> | [[data [address [Hread [Haddr [Hget ->]]]]]
            | [data [address [entry [Hread [Haddr [Hget [_ ->]]]]]]]]].
  - rewrite (init_file_world_only db file_path s s' Hw), Heq. reflexivity.
  - unfold init_file. munfold. simpl.
    rewrite Hw, Hread, Haddr, dict_get_set_same. simpl.
    rewrite append_new_spec. simpl.
    fold (fresh_of (get_default (file_challenge_queue data) [])
            (get_default (file_challenge_queue data) [])).
    rewrite fresh_of_nil; [reflexivity |].
    intros c Hc. apply in_map, Hc.
  - unfold init_file. munfold. simpl.
    rewrite Hw, Hread, Haddr, dict_get_set_same. simpl.
    rewrite append_new_spec. simpl.
    match goal with
    | |- context [filter ?p ?inc] =>
        match p with
        | context [map challengeId ?q] =>
            fold (fresh_of q inc); rewrite (fresh_of_nil q inc)
        end
    end; [reflexivity |].
    apply merged_holds_all.
Qed.

(** C6. Importing a receipt file twice in succession leaves the same
    persisted store as importing it once, whether the two imports are two
    runs of [init] or one run given the file twice. *)
Theorem import_twice_is_import_once (file_path : string) (s : State) :
  let once := run_command s (CmdInit [file_path]) in
  disk (run_command once (CmdInit [file_path])) = disk once /\
  disk (run_command s (CmdInit [file_path; file_path])) = disk once.
Proof.
  intros once.
  destruct (run_init [file_path] s) as [db1 [s0 [s1 [Hd1 [Hw1 [Hs0 Hrun1]]]]]].
  fold once in Hd1, Hw1.
  simpl in Hrun1. unfold bind in Hrun1.
  destruct (init_file (stored (disk s)) file_path s0)
    as [[d1|e] t1] eqn:Hfirst; [| discriminate].
  unfold ret in Hrun1. inversion Hrun1; subst d1 t1; clear Hrun1.
  split.
  - destruct (run_init [file_path] once)
      as [db2 [u0 [u1 [Hd2 [_ [Hu0 Hrun2]]]]]].
    rewrite Hd2, Hd1. f_equal.
    rewrite Hd1 in Hrun2. simpl in Hrun2. unfold bind in Hrun2.
    pose proof (init_file_idem _ _ _ _ _ u0 Hfirst) as Hidem.
    rewrite Hu0, Hw1, Hs0 in Hidem. specialize (Hidem eq_refl).
    destruct (init_file db1 file_path u0) as [[d2|e] t2]; [| discriminate].
    simpl in Hidem. unfold ret in Hrun2. congruence.
  - destruct (run_init [file_path; file_path] s)
      as [db2 [u0 [u1 [Hd2 [_ [Hu0 Hrun2]]]]]].
    rewrite Hd2, Hd1. f_equal.
    simpl in Hrun2. unfold bind in Hrun2.
    pose proof (init_file_world_only (stored (disk s)) file_path s0 u0)
      as Hsame.
    rewrite Hu0, Hs0 in Hsame. specialize (Hsame eq_refl).
    rewrite Hfirst in Hsame. simpl in Hsame.
    destruct (init_file (stored (disk s)) file_path u0)
      as [[d1|e] t1] eqn:Hagain; [| discriminate].
    simpl in Hsame. inversion Hsame; subst d1.
    pose proof (init_file_idem _ _ _ _ _ t1 Hagain) as Hidem.
    destruct (init_file_cases (stored (disk s)) file_path u0)
      as [d [o [Heq _]]].
    rewrite Heq in Hagain. inversion Hagain; subst. simpl in Hidem.
    specialize (Hidem eq_refl).
    match type of Hrun2 with
    | context [init_file db1 file_path ?st] =>
        destruct (init_file db1 file_path st) as [[d2|e] t2];
          [| discriminate]
    end.
    simpl in Hidem. unfold ret in Hrun2. congruence.
Qed.


(** *** Solve: one record *)

Lemma submit_disk (address : string) (c : Challenge) (nonce : string)
    (s : State) :
  disk (snd (submit address c nonce s)) = disk s.
Proof.
  unfold submit. munfold. simpl.
  destruct (requests_post _ (world s)) as [[body| |] w]; simpl;
    try reflexivity.
  destruct (datetime_now w) as [t w']. simpl.
  destruct body as [|[h|]|]; reflexivity.
Qed.

Lemma solve_challenge_disk (now : Z) (address : string) (c : Challenge)
    (s : State) :
  disk (snd (solve_challenge now address c s)) = disk s.
Proof.
  unfold solve_challenge.
  destruct (String.eqb (status c) "available"); [| reflexivity].
  destruct (latestSubmission c) as [latest|]; [| reflexivity].
  destruct (fromisoformat latest) as [t|]; [| reflexivity].
  destruct (now >? t)%Z; [reflexivity |].
  munfold. simpl.
  destruct (subprocess_run _ (world s)) as [[stdout|stderr|] w]; simpl;
    try reflexivity.
  match goal with
  | |- context [submit ?a ?c ?n ?st] =>
      pose proof (submit_disk a c n st) as Hs;
      destruct (submit a c n st) as [[c'|e] s']
  end; simpl in *; exact Hs.
Qed.

(** What [submit] returns is the record it was given, or a solved one. *)
Lemma submit_returns (address : string) (c : Challenge) (nonce : string)
    (s : State) (c' : Challenge) (s' : State) :
  submit address c nonce s = (Returned c', s') ->
  c' = c \/ status c' = "solved".
Proof.
  unfold submit. munfold. simpl.
  destruct (requests_post _ (world s)) as [[body| |] w]; simpl;
    try (intros H; inversion H; left; reflexivity).
  destruct (datetime_now w) as [t w']. simpl.
  destruct body as [|[h|]|]; simpl; intros H; inversion H; right;
    reflexivity.
Qed.

(** A record leaves [solve_challenge] as it came, or it came [available]
    and leaves [expired] or [solved]. *)
Lemma solve_challenge_evolves (now : Z) (address : string) (c : Challenge)
    (s : State) (c' : Challenge) (s' : State) :
  solve_challenge now address c s = (Returned c', s') ->
  record_evolves c c'.
Proof.
  unfold solve_challenge, record_evolves.
  destruct (String.eqb (status c) "available") eqn:Hav.
  2:{ munfold. intros H. inversion H. left. reflexivity. }
  apply String.eqb_eq in Hav.
  destruct (latestSubmission c) as [latest|]; [| discriminate].
  destruct (fromisoformat latest) as [t|]; [| discriminate].
  destruct (now >? t)%Z.
  { munfold. simpl. intros H. inversion H. right. auto. }
  unfold bind at 1. unfold print at 1, emit. simpl.
  unfold bind at 1. unfold call at 1. simpl.
  destruct (subprocess_run _ (world s)) as [[stdout|stderr|] w]; simpl.
  - unfold bind at 1. unfold print at 1, emit. simpl.
    intros H. apply submit_returns in H. destruct H as [-> | H]; auto.
  - munfold. simpl. intros H. inversion H. left. reflexivity.
  - munfold. simpl. intros H. inversion H. left. reflexivity.
Qed.

Lemma solve_address_disk (now : Z) (item : string * AddressEntry)
    (s : State) :
  disk (snd (solve_address now item s)) = disk s.
Proof.
  unfold solve_address. destruct item as [address data].
  destruct (challenge_queue data) as [q|]; [| reflexivity].
  unfold bind.
  pose proof (for_each_item_frame disk (solve_challenge now address)
                (solve_challenge_disk now address) q s) as Hq.
  destruct (for_each_item (solve_challenge now address) q s) as [[q'|e] s'];
    simpl in *; exact Hq.
Qed.

(** [solve_challenges] reads the clock once, runs the loop and saves; when
    the loop raises nothing is saved. *)
Lemma solve_challenges_spec (s : State) :
  let now := fst (datetime_now (world s)) in
  let s0 :=
    mkState (disk s) (snd (datetime_now (world s)))
      (out s ++ [Print MsgSolving] ++ load_warning (disk s)) in
  match for_each_item (solve_address now) (stored (disk s)) s0 with
  | (Returned db', s1) =>
      solve_challenges s =
      (Returned tt, mkState (Decodes db') (world s1) (out s1))
  | (Raised e, s1) =>
      solve_challenges s = (Raised e, s1) /\ disk s1 = disk s
  end.
Proof.
  intros now s0.
  unfold solve_challenges, bind, print, emit, save_db, now_utc.
  rewrite load_db_spec. simpl.
  subst now s0.
  destruct (datetime_now (world s)) as [now w]. simpl.
  rewrite <- app_assoc. simpl.
  match goal with
  | |- context [for_each_item (solve_address now) ?db ?s0] =>
      pose proof (for_each_item_frame disk (solve_address now)
                    (solve_address_disk now) db s0) as Hd;
      destruct (for_each_item (solve_address now) db s0) as [[db'|e] s1]
  end; simpl in *.
  - reflexivity.
  - split; [reflexivity | exact Hd].
Qed.

Lemma run_solve (s : State) :
  disk (run_command s CmdSolve) = disk s \/
  exists db' now s0 s1,
    disk (run_command s CmdSolve) = Decodes db' /\
    for_each_item (solve_address now) (stored (disk s)) s0 =
      (Returned db', s1).
Proof.
  unfold run_command, main, bind.
  rewrite load_db_spec.
  destruct (stored (disk s)) as [|kv db] eqn:Hst.
  - left. reflexivity.
  - match goal with
    | |- context [solve_challenges ?st] =>
        pose proof (solve_challenges_spec st) as Hspec; simpl in Hspec;
        rewrite Hst in Hspec
    end.
    match type of Hspec with
    | context [for_each_item ?f ?l ?st] =>
        destruct (for_each_item f l st) as [[db'|e] s1] eqn:Hrun
    end.
    + right. rewrite Hspec. simpl. eauto 6.
    + left. destruct Hspec as [-> Hd]. simpl in *. exact Hd.
Qed.





Lemma submit_out (address : string) (c : Challenge) (nonce : string)
    (s : State) :
  exists o, out (snd (submit address c nonce s)) = out s ++ o.
Proof.
  unfold submit. munfold. simpl.
  destruct (requests_post _ (world s)) as [[body| |] w]; simpl.
  - destruct (datetime_now w) as [t w']. simpl.
    destruct body as [|[h|]|]; simpl; rewrite <- ?app_assoc; eexists;
      reflexivity.
  - rewrite <- app_assoc. eexists. reflexivity.
  - rewrite <- app_assoc. eexists. reflexivity.
Qed.

(** C2. For an [available] record whose deadline has not passed: when the
    solver returns a nonce and the submission then fails with a request
    exception (transport error or non-success status), the loop body
    returns the record as it was -- still [available], with [salt],
    [solvedAt] and [hash] unwritten -- after logging the attempt, the
    solver run, the nonce, the POST and the error.  The record being
    unchanged, any later pass before the deadline runs the solver on it
    again. *)
Theorem failed_submission_keeps_record (now : Z) (address : string)
    (c : Challenge) (latest : string) (t : Z) (s : State)
    (stdout : string) (w1 w2 : World) :
  status c = "available" ->
  latestSubmission c = Some latest ->
  fromisoformat latest = Some t ->
  (now <= t)%Z ->
  let command := solver_command address c latest in
  let url := submit_url address (challengeId c) (strip stdout) in
  subprocess_run command (world s) = (SolverCompleted stdout, w1) ->
  requests_post url w1 = (PostRequestException, w2) ->
  solve_challenge now address c s =
    (Returned c,
     mkState (disk s) w2
       (out s ++
        [ Print (MsgAttempt (challengeId c) address);
          RunSolver command;
          Print (MsgFoundNonce (strip stdout));
          HttpPost url;
          Print MsgSubmitError ])) /\
  (forall now' s',
      (now' <= t)%Z ->
      exists o,
        out (snd (solve_challenge now' address c s')) =
        out s' ++ Print (MsgAttempt (challengeId c) address)
                  :: RunSolver command :: o).
Proof.
  intros Hst Hls Hparse Hle command url Hsolver Hpost.
  split.
  - unfold solve_challenge. rewrite Hst, Hls, Hparse. simpl.
    assert (Hgt : (now >? t)%Z = false)
      by (rewrite Z.gtb_ltb; apply Z.ltb_ge; lia).
    rewrite Hgt. unfold submit. munfold. simpl.
    fold command. rewrite Hsolver. simpl.
    fold url. rewrite Hpost. simpl.
    rewrite <- !app_assoc. reflexivity.
  - intros now' s' Hle'.
    unfold solve_challenge. rewrite Hst, Hls, Hparse. simpl.
    assert (Hgt : (now' >? t)%Z = false)
      by (rewrite Z.gtb_ltb; apply Z.ltb_ge; lia).
    rewrite Hgt. fold command.
    unfold bind at 1. unfold print at 1, emit. simpl.
    unfold bind at 1. unfold call at 1. simpl.
    destruct (subprocess_run command (world s')) as [[so|se|] w]; simpl.
    + unfold bind at 1. unfold print at 1, emit. simpl.
      match goal with
      | |- context [submit ?a ?r ?n ?st] =>
          destruct (submit_out a r n st) as [o Ho]; rewrite Ho
      end.
      simpl. rewrite <- !app_assoc. simpl. eexists. reflexivity.
    + munfold. simpl. rewrite <- !app_assoc. simpl. eexists. reflexivity.
    + munfold. simpl. rewrite <- !app_assoc. simpl. eexists. reflexivity.
Qed.


(** *** Status only moves forward *)

Lemma record_evolves_refl (c : Challenge) : record_evolves c c.
Proof. left. reflexivity. Qed.

Lemma record_evolves_trans (a b c : Challenge) :
  record_evolves a b -> record_evolves b c -> record_evolves a c.
Proof.
  unfold record_evolves.
  intros [-> | [Ha Hb]] [-> | [Hb' Hc]]; auto.
Qed.

Lemma Forall2_same {A : Type} (R : A -> A -> Prop) :
  (forall a, R a a) -> forall l, Forall2 R l l.
Proof. intros HR l. induction l; constructor; auto. Qed.

Lemma Forall2_compose {A : Type} (R : A -> A -> Prop) :
  (forall a b c, R a b -> R b c -> R a c) ->
  forall l1 l2 l3, Forall2 R l1 l2 -> Forall2 R l2 l3 -> Forall2 R l1 l3.
Proof.
  intros HR l1 l2 l3 H12. revert l3.
  induction H12 as [|a b l1 l2 Hab _ IH]; intros l3 H23.
  - inversion H23. constructor.
  - inversion H23; subst. constructor; eauto.
Qed.

Lemma store_evolves_refl (db : Store) : store_evolves db db.
Proof.
  intros address entry Hget.
  exists entry, (get_default (challenge_queue entry) []), [].
  split; [exact Hget |].
  split; [apply Forall2_same, record_evolves_refl |].
  rewrite app_nil_r. apply Permutation_refl.
Qed.

Lemma store_evolves_trans (db1 db2 db3 : Store) :
  store_evolves db1 db2 -> store_evolves db2 db3 -> store_evolves db1 db3.
Proof.
  intros H12 H23 address entry Hget.
  destruct (H12 _ _ Hget) as [e2 [q2 [added2 [Hget2 [Hev2 Hp2]]]]].
  destruct (H23 _ _ Hget2) as [e3 [q3 [added3 [Hget3 [Hev3 Hp3]]]]].
  destruct (Permutation_Forall2 Hp2 Hev3) as [q3' [Hp3' Hev3']].
  apply Forall2_app_inv_l in Hev3'.
  destruct Hev3' as [m1 [m2 [Hm1 [Hm2 ->]]]].
  exists e3, m1, (m2 ++ added3).
  split; [exact Hget3 |].
  split.
  - eapply Forall2_compose; [| exact Hev2 | exact Hm1].
    apply record_evolves_trans.
  - eapply perm_trans; [exact Hp3 |].
    rewrite app_assoc. apply Permutation_app_tail. exact Hp3'.
Qed.

(** Writing under [address] an entry whose queue is a permutation of the
    old queue and some more records. *)
Lemma store_evolves_set (db : Store) (address : string)
    (new_entry : AddressEntry) :
  (forall entry, dict_get address db = Some entry ->
     exists added,
       Permutation (get_default (challenge_queue new_entry) [])
         (get_default (challenge_queue entry) [] ++ added)) ->
  store_evolves db (dict_set address new_entry db).
Proof.
  intros Hnew a entry Hget.
  destruct (String.eqb a address) eqn:E.
  - apply String.eqb_eq in E. subst a.
    destruct (Hnew _ Hget) as [added Hp].
    exists new_entry, (get_default (challenge_queue entry) []), added.
    split; [apply dict_get_set_same |].
    split; [apply Forall2_same, record_evolves_refl | exact Hp].
  - apply String.eqb_neq in E.
    exists entry, (get_default (challenge_queue entry) []), [].
    split; [rewrite dict_get_set_other by exact E; exact Hget |].
    split; [apply Forall2_same, record_evolves_refl |].
    rewrite app_nil_r. apply Permutation_refl.
Qed.

Lemma init_file_evolves (db : Store) (file_path : string) (s : State)
    (db' : Store) (s' : State) :
  init_file db file_path s = (Returned db', s') -> store_evolves db db'.
Proof.
  intros Hrun.
  destruct (init_file_cases db file_path s) as [db1 [o [Heq Hcases]]].
  rewrite Heq in Hrun. inversion Hrun; subst db1; clear Hrun.
  destruct Hcases as [-> | [[data [address [_ [_ [Hget ->]]]]]
                           | [data [address [entry [_ [_ [Hget [_ ->]]]]]]]]].
  - apply store_evolves_refl.
  - apply store_evolves_set. intros entry He. congruence.
  - apply store_evolves_set. intros entry0 He.
    rewrite Hget in He. inversion He; subst entry0.
    eexists. simpl. apply sort_by_id_perm.
Qed.

Lemma fetch_address_evolves (db : Store) (address : string) (s : State)
    (db' : Store) (s' : State) :
  fetch_address db address s = (Returned db', s') -> store_evolves db db'.
Proof.
  intros Hrun.
  destruct (fetch_address_cases _ _ _ _ _ Hrun)
    as [-> | [entry [cd [w [_ [Hget [_ ->]]]]]]].
  - apply store_evolves_refl.
  - apply store_evolves_set. intros entry0 He.
    rewrite Hget in He. inversion He; subst entry0.
    eexists. simpl. apply sort_by_id_perm.
Qed.

Lemma solve_address_evolves (now : Z) (item : string * AddressEntry)
    (s : State) (item' : string * AddressEntry) (s' : State) :
  solve_address now item s = (Returned item', s') ->
  fst item' = fst item /\
  Forall2 record_evolves
    (get_default (challenge_queue (snd item)) [])
    (get_default (challenge_queue (snd item')) []).
Proof.
  unfold solve_address. destruct item as [address data]. simpl.
  destruct (challenge_queue data) as [q|] eqn:Hq.
  - unfold bind.
    destruct (for_each_item (solve_challenge now address) q s)
      as [[q'|e] s1] eqn:Hrun; [| discriminate].
    unfold ret. intros H. inversion H; subst. simpl.
    split; [reflexivity |].
    apply for_each_item_Forall2 in Hrun.
    eapply Forall2_impl; [| exact Hrun].
    intros a b [s2 [s3 Hb]]. eapply solve_challenge_evolves, Hb.
  - unfold ret. intros H. inversion H; subst. simpl. rewrite Hq.
    split; [reflexivity | constructor].
Qed.

Lemma entries_evolve (db db' : Store) :
  Forall2 (fun x x' =>
             fst x' = fst x /\
             Forall2 record_evolves
               (get_default (challenge_queue (snd x)) [])
               (get_default (challenge_queue (snd x')) [])) db db' ->
  store_evolves db db'.
Proof.
  induction 1 as [|[k e] [k' e'] db db' [Hk He] _ IH];
    intros address entry Hget; simpl in *; [discriminate |].
  subst k'.
  destruct (String.eqb address k).
  - inversion Hget; subst e.
    exists e', (get_default (challenge_queue e') []), [].
    split; [reflexivity |]. split; [exact He |].
    rewrite app_nil_r. apply Permutation_refl.
  - apply IH, Hget.
Qed.

Lemma run_command_evolves (command : Command) (s : State) :
  store_evolves (stored (disk s)) (stored (disk (run_command s command))).
Proof.
  destruct command as [files | |].
  - destruct (run_init files s) as [db' [s0 [s1 [-> [_ [_ Hrun]]]]]]. simpl.
    eapply (for_each_inv (store_evolves (stored (disk s))));
      [| apply store_evolves_refl | exact Hrun].
    intros acc x s2 acc' s2' Hacc Hb.
    eapply store_evolves_trans; [exact Hacc | eapply init_file_evolves, Hb].
  - destruct (run_fetch s) as [-> | [db' [a [s0 [s1 [-> Hrun]]]]]];
      [apply store_evolves_refl |].
    simpl.
    eapply (for_each_inv (store_evolves (stored (disk s))));
      [| apply store_evolves_refl | exact Hrun].
    intros acc x s2 acc' s2' Hacc Hb.
    eapply store_evolves_trans; [exact Hacc | eapply fetch_address_evolves, Hb].
  - destruct (run_solve s) as [-> | [db' [now [s0 [s1 [-> Hrun]]]]]];
      [apply store_evolves_refl |].
    simpl. apply entries_evolve.
    apply for_each_item_Forall2 in Hrun.
    eapply Forall2_impl; [| exact Hrun].
    intros a b [s2 [s3 Hb]]. eapply solve_address_evolves, Hb.
Qed.

(** C9. Across any sequence of [init], [fetch] and [solve] commands,
    every record of the persisted store is still there at the end, under
    its address, either unchanged or having gone from [available] to
    [expired] or to [solved].  Such a step never starts from a status
    other than [available], and never ends in [available] unless nothing
    changed. *)
Theorem status_only_moves_forward (commands : list Command) (s : State) :
  store_evolves (stored (disk s))
    (stored (disk (run_commands commands s))) /\
  (forall c c', record_evolves c c' -> status c <> "available" -> c' = c) /\
  (forall c c', record_evolves c c' -> status c' = "available" -> c' = c).
Proof.
  split; [| split].
  - revert s.
    induction commands as [|command commands IH]; simpl; intros s.
    + apply store_evolves_refl.
    + eapply store_evolves_trans; [apply run_command_evolves | apply IH].
  - intros c c' [-> | [Hc _]] Hn; [reflexivity | contradiction].
  - intros c c' [-> | [_ [Hc | Hc]]] Ha; [reflexivity | |];
      rewrite Hc in Ha; discriminate.
Qed.


(** ** Further properties of the code *)

(** *** What the solve pass writes *)

Lemma submit_shapes (address : string) (c : Challenge) (nonce : string)
    (s : State) (c' : Challenge) (s' : State) :
  submit address c nonce s = (Returned c', s') ->
  c' = c \/
  exists t,
    c' = mark_solved c t nonce \/
    exists h, c' = set_hash (mark_solved c t nonce) h.
Proof.
  unfold submit. munfold. simpl.
  destruct (requests_post _ (world s)) as [[body| |] w]; simpl;
    try (intros H; inversion H; left; reflexivity).
  destruct (datetime_now w) as [t w']. simpl.
  destruct body as [|[h|]|]; simpl; intros H; inversion H; right; exists t;
    try (left; reflexivity).
  right. exists h. reflexivity.
Qed.

(** X4. Whatever the solver and the service do, a record leaves the loop
    body of the solve pass in one of three shapes: as it came; or, having
    come [available], with its status set to [expired] and nothing else
    changed; or with [status], [solvedAt] and [salt] written, and [hash]
    too when the response carried one.  No other field is ever written. *)
Theorem solve_challenge_shapes (now : Z) (address : string) (c : Challenge)
    (s : State) (c' : Challenge) (s' : State) :
  solve_challenge now address c s = (Returned c', s') ->
  c' = c \/
  (status c = "available" /\
   (c' = set_status c "expired" \/
    exists t nonce,
      c' = mark_solved c t nonce \/
      exists h, c' = set_hash (mark_solved c t nonce) h)).
Proof.
  unfold solve_challenge.
  destruct (String.eqb (status c) "available") eqn:Hav.
  2:{ munfold. intros H. inversion H. left. reflexivity. }
  apply String.eqb_eq in Hav.
  destruct (latestSubmission c) as [latest|]; [| discriminate].
  destruct (fromisoformat latest) as [t|]; [| discriminate].
  destruct (now >? t)%Z.
  { munfold. simpl. intros H. inversion H. right. auto. }
  unfold bind at 1. unfold print at 1, emit. simpl.
  unfold bind at 1. unfold call at 1. simpl.
  destruct (subprocess_run _ (world s)) as [[stdout|stderr|] w]; simpl.
  - unfold bind at 1. unfold print at 1, emit. simpl.
    intros H. apply submit_shapes in H.
    destruct H as [-> | [t0 H]]; [left; reflexivity |].
    right. split; [exact Hav |]. right. exists t0, (strip stdout). exact H.
  - munfold. simpl. intros H. inversion H. left. reflexivity.
  - munfold. simpl. intros H. inversion H. left. reflexivity.
Qed.

Lemma solve_challenge_id (now : Z) (address : string) (c : Challenge)
    (s : State) (c' : Challenge) (s' : State) :
  solve_challenge now address c s = (Returned c', s') ->
  challengeId c' = challengeId c.
Proof.
  intros H. apply solve_challenge_shapes in H.
  destruct H as [-> | [_ [-> | [t [nonce [-> | [h ->]]]]]]]; reflexivity.
Qed.

Lemma solve_queue_ids (now : Z) (address : string) (q : list Challenge)
    (s : State) (q' : list Challenge) (s' : State) :
  for_each_item (solve_challenge now address) q s = (Returned q', s') ->
  map challengeId q' = map challengeId q.
Proof.
  intros Hrun. apply for_each_item_Forall2 in Hrun.
  induction Hrun as [|a b l l' [s2 [s3 Hab]] _ IH]; simpl; [reflexivity |].
  rewrite (solve_challenge_id _ _ _ _ _ _ Hab), IH. reflexivity.
Qed.

Lemma solve_address_skeleton (now : Z) (item : string * AddressEntry)
    (s : State) (item' : string * AddressEntry) (s' : State) :
  solve_address now item s = (Returned item', s') ->
  skeleton [item'] = skeleton [item].
Proof.
  unfold solve_address, skeleton. destruct item as [address data]. simpl.
  destruct (challenge_queue data) as [q|] eqn:Hq.
  - unfold bind.
    destruct (for_each_item (solve_challenge now address) q s)
      as [[q'|e] s1] eqn:Hrun; [| discriminate].
    unfold ret. intros H. inversion H; subst. simpl.
    rewrite (solve_queue_ids _ _ _ _ _ _ Hrun). reflexivity.
  - unfold ret. intros H. inversion H; subst. simpl. rewrite Hq.
    reflexivity.
Qed.

Lemma solve_skeleton_run (s : State) :
  skeleton (stored (disk (run_command s CmdSolve))) =
  skeleton (stored (disk s)).
Proof.
  destruct (run_solve s) as [-> | [db' [now [s0 [s1 [-> Hrun]]]]]];
    [reflexivity |].
  simpl. apply for_each_item_Forall2 in Hrun.
  induction Hrun as [|a b l l' [s2 [s3 Hab]] _ IH]; [reflexivity |].
  apply solve_address_skeleton in Hab.
  change (skeleton (b :: l')) with (skeleton [b] ++ skeleton l').
  change (skeleton (a :: l)) with (skeleton [a] ++ skeleton l).
  rewrite Hab, IH. reflexivity.
Qed.

(** X2. The [solve] command never adds, removes or reorders anything: the
    persisted store has the same addresses in the same order after it as
    before it, each with the same registration receipt and the same
    challenge ids in the same order. *)
Theorem solve_keeps_addresses_and_ids (s : State) :
  skeleton (stored (disk (run_command s CmdSolve))) =
    skeleton (stored (disk s)) /\
  keys (stored (disk (run_command s CmdSolve))) = keys (stored (disk s)).
Proof.
  pose proof (solve_skeleton_run s) as Hsk.
  split; [exact Hsk |].
  unfold keys.
  assert (Hk : forall db : Store,
             map fst db = map (fun x => fst (fst x)) (skeleton db)).
  { intros db. unfold skeleton. rewrite map_map. reflexivity. }
  rewrite !Hk, Hsk. reflexivity.
Qed.

Lemma queue_sorted_ids (q : list Challenge) :
  forall q', map challengeId q' = map challengeId q ->
    queue_sorted q -> queue_sorted q'.
Proof.
  unfold queue_sorted.
  induction q as [|c q IH]; intros [|c' q'] Hids Hs; try discriminate.
  - constructor.
  - simpl in Hids. injection Hids as Hc Hq.
    inversion Hs as [|? ? Hsq Hhd]; subst.
    constructor; [apply IH; assumption |].
    destruct q' as [|d' q']; [constructor |].
    destruct q as [|d q]; [discriminate |].
    simpl in Hq. injection Hq as Hd Hq.
    inversion Hhd as [|? ? Hcd]; subst.
    constructor. unfold id_le in *. rewrite Hc, Hd. exact Hcd.
Qed.

Lemma store_ok_skeleton (db : Store) :
  forall db', skeleton db' = skeleton db -> store_ok db -> store_ok db'.
Proof.
  unfold store_ok, skeleton.
  induction db as [|kv db IH]; intros [|kv' db'] Hsk Hok; try discriminate.
  - constructor.
  - simpl in Hsk. injection Hsk as _ _ Hids Hrest.
    inversion Hok as [|? ? [Hsorted Huniq] Hdb]; subst.
    constructor; [| apply IH; assumption].
    split.
    + eapply queue_sorted_ids; [exact Hids | exact Hsorted].
    + unfold queue_unique in *. rewrite Hids. exact Huniq.
Qed.

(** X3. The queue invariant is kept by every command, [solve] included:
    if every queue of the persisted store is in ascending order of id
    without a duplicate, and every receipt file lists its challenges so,
    the same holds after any sequence of commands. *)
Theorem all_commands_keep_queues_ok (commands : list Command) (s : State) :
  receipts_ok ->
  store_ok (stored (disk s)) ->
  store_ok (stored (disk (run_commands commands s))).
Proof.
  intros Hfiles. revert s.
  induction commands as [|command commands IH]; simpl; intros s Hok.
  - exact Hok.
  - apply IH.
    destruct command as [files | |].
    + destruct (run_init files s) as [db' [s0 [s1 [-> [_ [_ Hrun]]]]]].
      simpl.
      eapply (for_each_inv store_ok); [| exact Hok | exact Hrun].
      intros acc x s2 acc' s2'. apply init_file_ok, Hfiles.
    + destruct (run_fetch s) as [-> | [db' [a [s0 [s1 [-> Hrun]]]]]];
        [exact Hok |].
      simpl.
      eapply (for_each_inv store_ok); [| exact Hok | exact Hrun].
      intros acc x s2 acc' s2'. apply fetch_address_ok.
    + eapply store_ok_skeleton; [| exact Hok].
      exact (solve_skeleton_run s).
Qed.


(** *** Solve: the other outcomes of one attempt *)

(** X5. For an [available] record whose deadline has not passed (the
    deadline itself included): when the solver returns and the service
    accepts the submission, the record is marked [solved], [salt] is the
    solver's output without the white space, Unicode white space
    included, that [str.strip] removes at its ends, [solvedAt] is the
    clock read after the submission, and [hash] is written only when the
    response is an object with a hash; a response that cannot be read
    still leaves the record solved. *)
Theorem accepted_solution_marks_solved (now : Z) (address : string)
    (c : Challenge) (latest : string) (t : Z) (s : State)
    (stdout : string) (body : ResponseBody) (w1 w2 : World) :
  status c = "available" ->
  latestSubmission c = Some latest ->
  fromisoformat latest = Some t ->
  (now <= t)%Z ->
  let command := solver_command address c latest in
  let url := submit_url address (challengeId c) (strip stdout) in
  subprocess_run command (world s) = (SolverCompleted stdout, w1) ->
  requests_post url w1 = (PostOk body, w2) ->
  let solved := mark_solved c (fst (datetime_now w2)) (strip stdout) in
  let c' :=
    match body with
    | BodyObject (Some h) => set_hash solved h
    | _ => solved
    end in
  solve_challenge now address c s =
    (Returned c',
     mkState (disk s) (snd (datetime_now w2))
       (out s ++
        [ Print (MsgAttempt (challengeId c) address);
          RunSolver command;
          Print (MsgFoundNonce (strip stdout));
          HttpPost url;
          Print (MsgSubmitted (challengeId c)) ] ++
        match body with
        | BodyOther => [Print MsgUnexpected]
        | _ => []
        end)) /\
  status c' = "solved" /\
  salt c' = Some (strip stdout) /\
  solvedAt c' = Some (isoformat (fst (datetime_now w2))) /\
  challengeId c' = challengeId c.
Proof.
  intros Hst Hls Hparse Hle command url Hsolver Hpost solved c'.
  split.
  - unfold solve_challenge. rewrite Hst, Hls, Hparse. simpl.
    assert (Hgt : (now >? t)%Z = false)
      by (rewrite Z.gtb_ltb; apply Z.ltb_ge; lia).
    rewrite Hgt. unfold submit. munfold. simpl.
    fold command. rewrite Hsolver. simpl.
    fold url. rewrite Hpost. simpl.
    subst c' solved. unfold mark_solved.
    destruct (datetime_now w2) as [t2 w3]. simpl.
    destruct body as [|[h|]|]; simpl; rewrite <- !app_assoc; reflexivity.
  - subst c' solved. destruct body as [|[h|]|]; repeat split; reflexivity.
Qed.

(** X6. For an [available] record whose deadline has not passed: when the
    solver fails, by a non-zero exit or by any other exception, the record
    is returned as it was, the failure is reported and no submission is
    attempted. *)
Theorem failed_solver_keeps_record (now : Z) (address : string)
    (c : Challenge) (latest : string) (t : Z) (s : State) :
  status c = "available" ->
  latestSubmission c = Some latest ->
  fromisoformat latest = Some t ->
  (now <= t)%Z ->
  let command := solver_command address c latest in
  (forall stderr w1,
      subprocess_run command (world s) =
        (SolverCalledProcessError stderr, w1) ->
      solve_challenge now address c s =
      (Returned c,
       mkState (disk s) w1
         (out s ++
          [ Print (MsgAttempt (challengeId c) address);
            RunSolver command;
            Print (MsgSolverError stderr) ]))) /\
  (forall w1,
      subprocess_run command (world s) = (SolverException, w1) ->
      solve_challenge now address c s =
      (Returned c,
       mkState (disk s) w1
         (out s ++
          [ Print (MsgAttempt (challengeId c) address);
            RunSolver command;
            Print MsgUnexpected ]))).
Proof.
  intros Hst Hls Hparse Hle command.
  assert (Hgt : (now >? t)%Z = false)
    by (rewrite Z.gtb_ltb; apply Z.ltb_ge; lia).
  split; intros; unfold solve_challenge; rewrite Hst, Hls, Hparse; simpl;
    rewrite Hgt; munfold; simpl; fold command;
    match goal with H : subprocess_run _ _ = _ |- _ => rewrite H end;
    simpl; rewrite <- !app_assoc; reflexivity.
Qed.

Lemma solve_queue_no_available (now : Z) (address : string)
    (q : list Challenge) (s : State) :
  forallb (fun c => negb (String.eqb (status c) "available")) q = true ->
  for_each_item (solve_challenge now address) q s = (Returned q, s).
Proof.
  induction q as [|c q IH]; simpl; intros Hq; [reflexivity |].
  apply andb_true_iff in Hq. destruct Hq as [Hc Hq].
  apply negb_true_iff in Hc.
  assert (Hstep : solve_challenge now address c s = (Returned c, s))
    by (unfold solve_challenge; rewrite Hc; reflexivity).
  unfold bind. rewrite Hstep, (IH Hq). reflexivity.
Qed.

Lemma solve_store_no_available (now : Z) (db : Store) (s : State) :
  no_available db = true ->
  for_each_item (solve_address now) db s = (Returned db, s).
Proof.
  unfold no_available.
  induction db as [|[address data] db IH]; intros Hdb; [reflexivity |].
  simpl in Hdb. apply andb_true_iff in Hdb. destruct Hdb as [Hq Hdb].
  cbn [for_each_item]. unfold bind at 1.
  assert (Hitem : solve_address now (address, data) s =
                  (Returned (address, data), s)).
  { unfold solve_address. destruct data as [r [q|]]; simpl in *.
    - unfold bind. rewrite (solve_queue_no_available _ _ _ _ Hq).
      reflexivity.
    - reflexivity. }
  rewrite Hitem. unfold bind. rewrite (IH Hdb). reflexivity.
Qed.

(** X7. A solve pass over a store without an [available] record reads
    the clock and saves the store it loaded: no solver is run, nothing is
    submitted, no record changes. *)
Theorem solve_without_available_is_noop (s : State) (db : Store) :
  disk s = Decodes db ->
  no_available db = true ->
  solve_challenges s =
  (Returned tt,
   mkState (Decodes db) (snd (datetime_now (world s)))
     (out s ++ [Print MsgSolving])).
Proof.
  intros Hdisk Hdb.
  pose proof (solve_challenges_spec s) as Hspec. simpl in Hspec.
  rewrite Hdisk in Hspec. simpl in Hspec.
  rewrite (solve_store_no_available _ _ _ Hdb) in Hspec.
  rewrite Hspec. simpl. reflexivity.
Qed.

(** *** A command that raises *)

Lemma fetch_challenges_spec (addresses : list string) (s : State) :
  let s0 :=
    mkState (disk s) (world s)
      (out s ++ [Print MsgFetching] ++ load_warning (disk s)) in
  match for_each fetch_address addresses (stored (disk s)) s0 with
  | (Returned db', s1) =>
      fetch_challenges addresses s =
      (Returned tt, mkState (Decodes db') (world s1) (out s1))
  | (Raised e, s1) =>
      fetch_challenges addresses s = (Raised e, s1) /\ disk s1 = disk s
  end.
Proof.
  intros s0.
  unfold fetch_challenges, bind, print, emit, save_db.
  rewrite load_db_spec. simpl. subst s0.
  rewrite <- app_assoc. simpl.
  match goal with
  | |- context [for_each fetch_address addresses ?db ?s0] =>
      pose proof (for_each_frame disk fetch_address fetch_address_disk
                    addresses db s0) as Hd;
      destruct (for_each fetch_address addresses db s0) as [[db'|e] s1]
  end; simpl in *.
  - reflexivity.
  - split; [reflexivity | exact Hd].
Qed.

(** X12. When the loop of a fetch or of a solve pass raises, at whatever
    address or record, the command ends with that exception before
    [save_db] is reached: the document is exactly what it was before the
    command, whatever the pass had changed in memory or already sent to
    the service. *)
Theorem raised_command_saves_nothing (s : State) (db : Store) (e : Exn) :
  disk s = Decodes db ->
  db <> [] ->
  let now := fst (datetime_now (world s)) in
  let fetching :=
    mkState (disk s) (world s) (out s ++ [Print MsgFetching]) in
  let solving :=
    mkState (disk s) (snd (datetime_now (world s)))
      (out s ++ [Print MsgSolving]) in
  (fst (for_each fetch_address (keys db) db fetching) = Raised e ->
   fst (main CmdFetch s) = Raised e /\
   disk (snd (main CmdFetch s)) = Decodes db) /\
  (fst (for_each_item (solve_address now) db solving) = Raised e ->
   fst (main CmdSolve s) = Raised e /\
   disk (snd (main CmdSolve s)) = Decodes db).
Proof.
  intros Hdisk Hne now fetching solving.
  assert (Hload : load_db s =
                  (Returned db,
                   mkState (disk s) (world s) (out s ++ []))).
  { rewrite load_db_spec, Hdisk. reflexivity. }
  rewrite app_nil_r in Hload.
  assert (Hs : mkState (disk s) (world s) (out s) = s)
    by (destruct s; reflexivity).
  rewrite Hs in Hload.
  split; intros Hloop; unfold main, bind; rewrite Hload;
    (destruct db as [|kv db0]; [contradiction |]); cbv iota.
  - pose proof (fetch_challenges_spec (keys (kv :: db0)) s) as Hspec.
    cbv zeta in Hspec. rewrite Hdisk in Hspec.
    cbn [stored load_warning] in Hspec. rewrite app_nil_r in Hspec.
    subst fetching. rewrite Hdisk in Hloop.
    destruct (for_each fetch_address (keys (kv :: db0)) (kv :: db0) _)
      as [[db'|e'] s1]; simpl in Hloop; [discriminate |].
    inversion Hloop; subst e'.
    destruct Hspec as [-> Hd]. simpl. auto.
  - pose proof (solve_challenges_spec s) as Hspec.
    cbv zeta in Hspec. rewrite Hdisk in Hspec.
    cbn [stored load_warning] in Hspec. rewrite app_nil_r in Hspec.
    subst solving now. rewrite Hdisk in Hloop.
    destruct (for_each_item _ (kv :: db0) _) as [[db'|e'] s1];
      simpl in Hloop; [discriminate |].
    inversion Hloop; subst e'.
    destruct Hspec as [-> Hd]. simpl. auto.
Qed.

(** *** Fetch: failures of the request *)

(** X8. Only request exceptions are caught in the fetch loop: when the
    response to the first address raises anything else (a missing key in
    the body, say), [fetch_challenges] ends with that exception after the
    one request; the remaining addresses are not fetched and nothing is
    saved. *)
Theorem fetch_aborts_on_other_exception (address : string)
    (rest : list string) (s : State) (e : Exn) (w : World) :
  requests_get challenge_url (world s) = (GetUncaught e, w) ->
  fetch_challenges (address :: rest) s =
  (Raised e,
   mkState (disk s) w
     (out s ++ [Print MsgFetching] ++ load_warning (disk s) ++
      [HttpGet challenge_url])).
Proof.
  intros Hget.
  pose proof (fetch_challenges_spec (address :: rest) s) as Hspec.
  simpl in Hspec. unfold bind at 1 in Hspec.
  unfold fetch_address at 1 in Hspec. munfold. simpl in Hspec.
  rewrite Hget in Hspec. simpl in Hspec.
  destruct Hspec as [-> _]. rewrite <- !app_assoc. reflexivity.
Qed.

Lemma fetch_loop_all_fail (addresses : list string) (db : Store) :
  (forall w, fst (requests_get challenge_url w) = GetRequestException) ->
  forall s, exists s',
    for_each fetch_address addresses db s = (Returned db, s') /\
    length (filter (fun ev => negb (is_print ev)) (out s')) =
    length (filter (fun ev => negb (is_print ev)) (out s)) + length addresses.
Proof.
  intros Hfail.
  induction addresses as [|a l IH]; simpl; intros s.
  - exists s. split; [reflexivity | lia].
  - unfold bind at 1. unfold fetch_address at 1. munfold. simpl.
    specialize (Hfail (world s)).
    destruct (requests_get challenge_url (world s)) as [r w]. simpl in Hfail.
    subst r. simpl.
    match goal with
    | |- context [for_each fetch_address l db ?st] =>
        destruct (IH st) as [s' [Hrun Hlen]]
    end.
    exists s'. split; [exact Hrun |].
    rewrite Hlen. simpl. rewrite !filter_app, !length_app. simpl. lia.
Qed.

(** X13. When every request to the issuance endpoint fails with a request
    exception, [fetch_challenges] still goes through all the addresses --
    one request each -- and saves the store it loaded, unchanged. *)
Theorem fetch_survives_request_failures (addresses : list string)
    (s : State) :
  (forall w, fst (requests_get challenge_url w) = GetRequestException) ->
  fst (fetch_challenges addresses s) = Returned tt /\
  disk (snd (fetch_challenges addresses s)) = Decodes (stored (disk s)) /\
  length (filter (fun ev => negb (is_print ev))
            (out (snd (fetch_challenges addresses s)))) =
  length (filter (fun ev => negb (is_print ev)) (out s)) + length addresses.
Proof.
  intros Hfail.
  pose proof (fetch_challenges_spec addresses s) as Hspec. simpl in Hspec.
  match type of Hspec with
  | context [for_each fetch_address addresses ?db ?st] =>
      destruct (fetch_loop_all_fail addresses db Hfail st)
        as [s' [Hrun Hlen]]
  end.
  rewrite Hrun in Hspec. rewrite Hspec. simpl.
  split; [reflexivity |]. split; [reflexivity |].
  rewrite Hlen. simpl. rewrite !filter_app, !length_app.
  destruct (disk s); simpl; lia.
Qed.


(** *** The registration receipt *)

Lemma dict_set_keeps_receipt (db : Store) (address a : string)
    (entry new_entry : AddressEntry) :
  dict_get a db = Some entry ->
  (dict_get address db = Some entry ->
   registration_receipt new_entry = registration_receipt entry) ->
  (address = a -> dict_get address db <> None) ->
  exists entry',
    dict_get a (dict_set address new_entry db) = Some entry' /\
    registration_receipt entry' = registration_receipt entry.
Proof.
  intros Hget Hsame Hknown.
  destruct (String.eqb a address) eqn:E.
  - apply String.eqb_eq in E. subst a.
    exists new_entry. split; [apply dict_get_set_same | auto].
  - apply String.eqb_neq in E.
    exists entry. rewrite dict_get_set_other by exact E. auto.
Qed.

Lemma init_file_keeps_receipt (db : Store) (file_path : string) (s : State)
    (db' : Store) (s' : State) (a : string) (entry : AddressEntry) :
  init_file db file_path s = (Returned db', s') ->
  dict_get a db = Some entry ->
  exists entry',
    dict_get a db' = Some entry' /\
    registration_receipt entry' = registration_receipt entry.
Proof.
  intros Hrun Ha.
  destruct (init_file_cases db file_path s) as [db1 [o [Heq Hcases]]].
  rewrite Heq in Hrun. inversion Hrun; subst db1; clear Hrun.
  destruct Hcases as [-> | [[data [address [_ [_ [Hget ->]]]]]
                           | [data [address [e0 [_ [_ [Hget [_ ->]]]]]]]]].
  - exists entry. auto.
  - apply dict_set_keeps_receipt; [exact Ha | congruence | congruence].
  - apply dict_set_keeps_receipt; [exact Ha | | congruence].
    intros He. rewrite Hget in He. inversion He; subst. reflexivity.
Qed.

Lemma fetch_address_keeps_receipt (db : Store) (address : string)
    (s : State) (db' : Store) (s' : State) (a : string)
    (entry : AddressEntry) :
  fetch_address db address s = (Returned db', s') ->
  dict_get a db = Some entry ->
  exists entry',
    dict_get a db' = Some entry' /\
    registration_receipt entry' = registration_receipt entry.
Proof.
  intros Hrun Ha.
  destruct (fetch_address_cases _ _ _ _ _ Hrun)
    as [-> | [e0 [cd [w [_ [Hget [_ ->]]]]]]].
  - exists entry. auto.
  - apply dict_set_keeps_receipt; [exact Ha | | congruence].
    intros He. rewrite Hget in He. inversion He; subst. reflexivity.
Qed.

Lemma skeleton_keeps_receipt (db : Store) :
  forall db' a entry,
    skeleton db' = skeleton db ->
    dict_get a db = Some entry ->
    exists entry',
      dict_get a db' = Some entry' /\
      registration_receipt entry' = registration_receipt entry.
Proof.
  unfold skeleton.
  induction db as [|[k e] db IH]; intros [|[k' e'] db'] a entry Hsk Hget;
    try discriminate.
  simpl in Hsk. injection Hsk as Hk Hr _ Hrest. simpl in *. subst k'.
  destruct (String.eqb a k).
  - inversion Hget; subst. exists e'. auto.
  - eapply IH; eassumption.
Qed.

Lemma run_command_keeps_receipt (command : Command) (s : State)
    (a : string) (entry : AddressEntry) :
  dict_get a (stored (disk s)) = Some entry ->
  exists entry',
    dict_get a (stored (disk (run_command s command))) = Some entry' /\
    registration_receipt entry' = registration_receipt entry.
Proof.
  intros Ha.
  set (P := fun db : Store =>
              exists entry',
                dict_get a db = Some entry' /\
                registration_receipt entry' = registration_receipt entry).
  assert (HP : P (stored (disk s))) by (exists entry; auto).
  destruct command as [files | |].
  - destruct (run_init files s) as [db' [s0 [s1 [-> [_ [_ Hrun]]]]]]. simpl.
    eapply (for_each_inv P); [| exact HP | exact Hrun].
    intros acc x s2 acc' s2' [e1 [He1 Hr1]] Hb.
    destruct (init_file_keeps_receipt _ _ _ _ _ _ _ Hb He1) as [e2 [He2 Hr2]].
    exists e2. split; [exact He2 | congruence].
  - destruct (run_fetch s) as [-> | [db' [l [s0 [s1 [-> Hrun]]]]]];
      [exact HP |].
    simpl.
    eapply (for_each_inv P); [| exact HP | exact Hrun].
    intros acc x s2 acc' s2' [e1 [He1 Hr1]] Hb.
    destruct (fetch_address_keeps_receipt _ _ _ _ _ _ _ Hb He1)
      as [e2 [He2 Hr2]].
    exists e2. split; [exact He2 | congruence].
  - eapply skeleton_keeps_receipt; [apply solve_skeleton_run | exact Ha].
Qed.

(** X1. The registration receipt of an address is written once: whatever
    commands run afterwards, with whatever files and answers, the address
    is still in the persisted store with the receipt it had. *)
Theorem registration_receipt_is_kept (commands : list Command) (s : State)
    (a : string) (entry : AddressEntry) :
  dict_get a (stored (disk s)) = Some entry ->
  exists entry',
    dict_get a (stored (disk (run_commands commands s))) = Some entry' /\
    registration_receipt entry' = registration_receipt entry.
Proof.
  revert s entry.
  induction commands as [|command commands IH]; simpl; intros s entry Ha.
  - exists entry. auto.
  - destruct (run_command_keeps_receipt command s a entry Ha)
      as [e1 [He1 Hr1]].
    destruct (IH _ _ He1) as [e2 [He2 Hr2]].
    exists e2. split; [exact He2 | congruence].
Qed.

(** *** Import: merging into a known address, and importing again *)

(** X11. Importing a file whose records each carry their [challengeId],
    and whose address the store knows, keeps the entry's receipt and
    records and adds, in file order, the records of the file whose id the
    queue did not hold; the queue is then sorted and the number of added
    records reported.  When there is no such record the store is returned
    as it is. *)
Theorem import_known_address (db : Store) (file_path : string)
    (data : ReceiptData) (address : string) (entry : AddressEntry)
    (s : State) :
  read_json (world s) file_path = FileJson data ->
  truthy (receipt_address data) = Some address ->
  dict_get address db = Some entry ->
  let q := get_default (challenge_queue entry) [] in
  let fresh := fresh_of q (get_default (file_challenge_queue data) []) in
  init_file db file_path s =
  match fresh with
  | [] =>
      (Returned db,
       mkState (disk s) (world s)
         (out s ++ [Print (MsgUpdatingAddress address);
                    Print MsgNoNewChallenges]))
  | _ :: _ =>
      (Returned
         (dict_set address
            (mkEntry (registration_receipt entry)
               (Some (sort_by_id (q ++ fresh)))) db),
       mkState (disk s) (world s)
         (out s ++ [Print (MsgUpdatingAddress address);
                    Print (MsgAddedChallenges (length fresh))]))
  end.
Proof.
  intros Hread Haddr Hget q fresh.
  unfold init_file. munfold. simpl.
  rewrite Hread, Haddr, Hget. simpl.
  rewrite append_new_spec. simpl.
  fold (fresh_of (get_default (challenge_queue entry) [])
          (get_default (file_challenge_queue data) [])).
  fold q. fold fresh.
  destruct fresh as [|c l]; simpl; rewrite <- app_assoc; reflexivity.
Qed.

Lemma fresh_of_nil_inv (q incoming : list Challenge) :
  fresh_of q incoming = [] ->
  forall c, In c incoming -> In (challengeId c) (map challengeId q).
Proof.
  unfold fresh_of. intros Hnil c Hc.
  destruct (id_in (challengeId c) (map challengeId q)) eqn:Hin.
  - apply id_in_spec, Hin.
  - assert (Hf : In c (filter
                         (fun c => negb (id_in (challengeId c)
                                           (map challengeId q))) incoming)).
    { apply filter_In. split; [exact Hc | rewrite Hin; reflexivity]. }
    simpl in Hf. rewrite Hnil in Hf. destruct Hf.
Qed.

(** A file whose ids the store holds is read without effect on the store. *)
Lemma init_file_absorbed (db : Store) (file_path : string) (s : State) :
  absorbed (world s) db file_path ->
  exists o,
    init_file db file_path s =
    (Returned db, mkState (disk s) (world s) (out s ++ o)).
Proof.
  unfold absorbed, init_file. munfold. simpl.
  destruct (read_json (world s) file_path) as [| | |data]; simpl;
    try (intros _; eexists [_]; reflexivity).
  destruct (truthy (receipt_address data)) as [address|]; simpl;
    try (intros _; eexists [_]; reflexivity).
  destruct (dict_get address db) as [entry|]; [| intros []].
  intros Hfresh. simpl. rewrite append_new_spec. simpl.
  fold (fresh_of (get_default (challenge_queue entry) [])
          (get_default (file_challenge_queue data) [])).
  rewrite Hfresh. simpl. rewrite <- app_assoc. eexists [_; _]. reflexivity.
Qed.

(** Once a file is read, the store holds its ids. *)
Lemma init_file_absorbs (db : Store) (file_path : string) (s : State)
    (db' : Store) (s' : State) :
  init_file db file_path s = (Returned db', s') ->
  absorbed (world s) db' file_path.
Proof.
  unfold absorbed, init_file. munfold. simpl.
  destruct (read_json (world s) file_path) as [| | |data]; simpl; auto.
  destruct (truthy (receipt_address data)) as [address|]; simpl; auto.
  destruct (dict_get address db) as [entry|] eqn:Hget; simpl.
  - rewrite append_new_spec. simpl.
    fold (fresh_of (get_default (challenge_queue entry) [])
            (get_default (file_challenge_queue data) [])).
    destruct (fresh_of (get_default (challenge_queue entry) [])
                (get_default (file_challenge_queue data) []))
      as [|c l] eqn:Hf; simpl; intros H; inversion H; subst.
    + rewrite Hget. exact Hf.
    + rewrite dict_get_set_same. simpl. rewrite <- Hf.
      apply fresh_of_nil. apply merged_holds_all.
  - intros H. inversion H; subst. rewrite dict_get_set_same. simpl.
    apply fresh_of_nil. intros c Hc. apply in_map, Hc.
Qed.

(** Reading another file does not undo it. *)
Lemma init_file_keeps_absorbed (db : Store) (g : string) (s : State)
    (db' : Store) (s' : State) (w : World) (f : string) :
  init_file db g s = (Returned db', s') ->
  absorbed w db f -> absorbed w db' f.
Proof.
  intros Hrun. unfold absorbed.
  destruct (read_json w f) as [| | |data]; auto.
  destruct (truthy (receipt_address data)) as [a|]; auto.
  destruct (dict_get a db) as [entry|] eqn:Ha; [| intros []].
  intros Hfresh.
  destruct (init_file_cases db g s) as [db1 [o [Heq Hcases]]].
  rewrite Heq in Hrun. inversion Hrun; subst db1; clear Hrun.
  destruct Hcases as [-> | [[d [address [_ [_ [Hget ->]]]]]
                           | [d [address [e0 [_ [_ [Hget [_ ->]]]]]]]]].
  - rewrite Ha. exact Hfresh.
  - assert (Hne : a <> address) by congruence.
    rewrite dict_get_set_other by exact Hne. rewrite Ha. exact Hfresh.
  - destruct (String.eqb a address) eqn:E.
    + apply String.eqb_eq in E. subst a.
      rewrite dict_get_set_same. simpl.
      rewrite Hget in Ha. inversion Ha; subst e0.
      apply fresh_of_nil. intros c Hc.
      pose proof (fresh_of_nil_inv _ _ Hfresh c Hc) as Hin.
      eapply Permutation_in.
      * apply Permutation_map, Permutation_sym, sort_by_id_perm.
      * rewrite map_app. apply in_or_app. left. exact Hin.
    + apply String.eqb_neq in E.
      rewrite dict_get_set_other by exact E. rewrite Ha. exact Hfresh.
Qed.

Lemma for_each_init_absorbs (json_files : list string) :
  forall db s db' s',
    for_each init_file json_files db s = (Returned db', s') ->
    (forall f, absorbed (world s) db f -> absorbed (world s) db' f) /\
    Forall (absorbed (world s) db') json_files.
Proof.
  induction json_files as [|g l IH]; simpl; intros db s db' s' Hrun.
  - munfold. inversion Hrun; subst. auto.
  - unfold bind in Hrun.
    destruct (init_file_cases db g s) as [db1 [o [Heq _]]].
    rewrite Heq in Hrun.
    destruct (IH _ _ _ _ Hrun) as [Hkeep Hall]. simpl in Hkeep, Hall.
    split.
    + intros f Hf. apply Hkeep.
      eapply init_file_keeps_absorbed; [exact Heq | exact Hf].
    + constructor; [| exact Hall].
      apply Hkeep. eapply init_file_absorbs. exact Heq.
Qed.

Lemma for_each_init_absorbed (json_files : list string) (db : Store) :
  forall s,
    Forall (absorbed (world s) db) json_files ->
    exists o,
      for_each init_file json_files db s =
      (Returned db, mkState (disk s) (world s) (out s ++ o)).
Proof.
  induction json_files as [|g l IH]; simpl; intros s Hall.
  - exists []. rewrite app_nil_r. destruct s; reflexivity.
  - inversion Hall as [|? ? Hg Hl]; subst.
    destruct (init_file_absorbed db g s Hg) as [o1 Hrun].
    unfold bind. rewrite Hrun.
    destruct (IH (mkState (disk s) (world s) (out s ++ o1)) Hl)
      as [o2 Hrest].
    rewrite Hrest. simpl. exists (o1 ++ o2). rewrite app_assoc.
    reflexivity.
Qed.

(** X9. [init] is idempotent on any list of files: running it again with
    the same files, in the same world, leaves the persisted store exactly
    as the first run left it. *)
Theorem init_twice_is_init_once (files : list string) (s : State) :
  let once := run_command s (CmdInit files) in
  disk (run_command once (CmdInit files)) = disk once.
Proof.
  intros once.
  destruct (run_init files s) as [db1 [s0 [s1 [Hd1 [Hw1 [Hs0 Hrun1]]]]]].
  fold once in Hd1, Hw1.
  destruct (run_init files once) as [db2 [u0 [u1 [Hd2 [_ [Hu0 Hrun2]]]]]].
  rewrite Hd2, Hd1. f_equal.
  rewrite Hd1 in Hrun2. simpl in Hrun2.
  apply for_each_init_absorbs in Hrun1. destruct Hrun1 as [_ Hall].
  rewrite Hs0, <- Hw1, <- Hu0 in Hall.
  destruct (for_each_init_absorbed files db1 u0 Hall) as [o Hagain].
  rewrite Hagain in Hrun2. inversion Hrun2. reflexivity.
Qed.

Lemma unusable_absorbed (w : World) (db : Store) (file_path : string) :
  unusable w file_path = true -> absorbed w db file_path.
Proof.
  unfold unusable, absorbed.
  destruct (read_json w file_path) as [| | |data]; auto.
  destruct (truthy (receipt_address data)); [discriminate | auto].
Qed.

(** X10. Given only files that are missing, are not JSON, cannot be read
    or name no address, [init] returns normally, leaves the world alone and saves the
    store it loaded: the stored addresses as they were, and the empty
    store when there was no document or an undecodable one. *)
Theorem init_with_unusable_files (files : list string) (s : State) :
  forallb (unusable (world s)) files = true ->
  fst (init_db files s) = Returned tt /\
  disk (snd (init_db files s)) = Decodes (stored (disk s)) /\
  world (snd (init_db files s)) = world s.
Proof.
  intros Hfiles.
  destruct (init_db_spec files s) as [db' [s0 [s1 [o [Hw [Hrun Heq]]]]]].
  rewrite Heq. simpl. split; [reflexivity |]. split; [| reflexivity].
  f_equal.
  assert (Hall : Forall (absorbed (world s0) (stored (disk s))) files).
  { rewrite Hw. rewrite forallb_forall in Hfiles.
    apply Forall_forall. intros f Hf.
    apply unusable_absorbed, Hfiles, Hf. }
  destruct (for_each_init_absorbed files _ s0 Hall) as [o' Hagain].
  rewrite Hagain in Hrun. inversion Hrun. reflexivity.
Qed.


(** *** Import: a new address *)

Lemma keys_dict_set_new {V : Type} (k : string) (v : V)
    (d : list (string * V)) :
  dict_get k d = None -> keys (dict_set k v d) = keys d ++ [k].
Proof.
  unfold keys.
  induction d as [|[k' v'] d IH]; simpl; [reflexivity |].
  destruct (String.eqb k k'); [discriminate |].
  intros H. simpl. rewrite IH by exact H. reflexivity.
Qed.

(** X14. Importing a file whose address the store does not know adds the
    address after the existing ones, with the receipt and the challenge
    queue of the file as they are (the empty queue when the file has
    none); no other address is touched. *)
Theorem import_new_address (db : Store) (file_path : string)
    (data : ReceiptData) (address : string) (s : State) :
  read_json (world s) file_path = FileJson data ->
  truthy (receipt_address data) = Some address ->
  dict_get address db = None ->
  exists db',
    init_file db file_path s =
      (Returned db',
       mkState (disk s) (world s)
         (out s ++ [Print (MsgAddedAddress address)])) /\
    dict_get address db' =
      Some (mkEntry (file_registration_receipt data)
              (Some (get_default (file_challenge_queue data) []))) /\
    keys db' = keys db ++ [address] /\
    (forall a, a <> address -> dict_get a db' = dict_get a db).
Proof.
  intros Hread Haddr Hget.
  eexists. split; [| split; [| split]].
  - unfold init_file. munfold. simpl.
    rewrite Hread, Haddr, Hget. reflexivity.
  - apply dict_get_set_same.
  - apply keys_dict_set_new, Hget.
  - intros a Hne. apply dict_get_set_other, Hne.
Qed.

(** *** Fetch: a second pass *)

Lemma fetch_address_steady (challenge_data : ChallengeData) (db : Store)
    (address : string) (s : State) :
  (forall w, fst (requests_get challenge_url w) = GetOk challenge_data) ->
  exists db' s',
    fetch_address db address s = (Returned db', s') /\
    keys db' = keys db /\
    has_challenge challenge_data db' address /\
    (forall a, has_challenge challenge_data db a ->
               has_challenge challenge_data db' a) /\
    (has_challenge challenge_data db address -> db' = db).
Proof.
  intros Hsame. unfold fetch_address, has_challenge. munfold. simpl.
  specialize (Hsame (world s)).
  destruct (requests_get challenge_url (world s)) as [r w]. simpl in Hsame.
  subst r. simpl.
  destruct (dict_get address db) as [entry|] eqn:Hget; simpl.
  - destruct (any_id (challenge_id challenge_data)
                (get_default (challenge_queue entry) [])) eqn:Hany; simpl.
    + eexists _, _. split; [reflexivity |].
      rewrite Hget. repeat split; auto.
    + eexists _, _. split; [reflexivity |].
      assert (Hnew : any_id (challenge_id challenge_data)
                       (sort_by_id
                          (get_default (challenge_queue entry) [] ++
                           [new_challenge_of challenge_data])) = true).
      { rewrite (any_id_perm _ _ _ (sort_by_id_perm _)).
        unfold any_id. rewrite existsb_app. simpl.
        rewrite String.eqb_refl, orb_true_r. reflexivity. }
      split; [eapply keys_dict_set_known; exact Hget |].
      split; [rewrite dict_get_set_same; exact Hnew |].
      split; [| discriminate].
      intros a Ha.
      destruct (String.eqb a address) eqn:E.
      * apply String.eqb_eq in E. subst a.
        rewrite dict_get_set_same. exact Hnew.
      * apply String.eqb_neq in E.
        rewrite dict_get_set_other by exact E. exact Ha.
  - eexists _, _. split; [reflexivity |].
    rewrite Hget. repeat split; auto.
Qed.

Lemma fetch_loop_steady (challenge_data : ChallengeData)
    (addresses : list string) :
  (forall w, fst (requests_get challenge_url w) = GetOk challenge_data) ->
  forall db s, exists db' s',
    for_each fetch_address addresses db s = (Returned db', s') /\
    keys db' = keys db /\
    Forall (has_challenge challenge_data db') addresses /\
    (forall a, has_challenge challenge_data db a ->
               has_challenge challenge_data db' a) /\
    (Forall (has_challenge challenge_data db) addresses -> db' = db).
Proof.
  intros Hsame.
  induction addresses as [|a l IH]; simpl; intros db s.
  - exists db, s. repeat split; auto.
  - destruct (fetch_address_steady challenge_data db a s Hsame)
      as [db1 [s1 [Hrun [Hk1 [Ha1 [Hmono1 Hid1]]]]]].
    destruct (IH db1 s1) as [db2 [s2 [Hrest [Hk2 [Hall2 [Hmono2 Hid2]]]]]].
    exists db2, s2. unfold bind. rewrite Hrun.
    split; [exact Hrest |].
    split; [congruence |].
    split; [constructor; [apply Hmono2, Ha1 | exact Hall2] |].
    split; [intros a0 H0; apply Hmono2, Hmono1, H0 |].
    intros Hall. inversion Hall as [|? ? Ha Hl]; subst.
    specialize (Hid1 Ha). subst db1. apply Hid2, Hl.
Qed.

(** X15. As long as the service hands out the same challenge, the
    [fetch] command is idempotent: a second run leaves the persisted store
    exactly as the first run left it. *)
Theorem fetch_twice_is_fetch_once (challenge_data : ChallengeData)
    (s : State) :
  (forall w, fst (requests_get challenge_url w) = GetOk challenge_data) ->
  let once := run_command s CmdFetch in
  disk (run_command once CmdFetch) = disk once.
Proof.
  intros Hsame once.
  assert (Hrun : forall st : State,
             stored (disk st) <> [] ->
             exists db',
               disk (run_command st CmdFetch) = Decodes db' /\
               keys db' = keys (stored (disk st)) /\
               Forall (has_challenge challenge_data db')
                 (keys (stored (disk st))) /\
               (Forall (has_challenge challenge_data (stored (disk st)))
                  (keys (stored (disk st))) ->
                db' = stored (disk st))).
  { intros st Hne. unfold run_command, main, bind.
    rewrite load_db_spec.
    destruct (stored (disk st)) as [|kv db] eqn:Hst; [contradiction |].
    match goal with
    | |- context [fetch_challenges ?a ?u] =>
        pose proof (fetch_challenges_spec a u) as Hspec;
        cbv zeta in Hspec; cbn [disk world out] in Hspec
    end.
    rewrite Hst in Hspec.
    match type of Hspec with
    | context [for_each fetch_address ?l ?acc ?u] =>
        destruct (fetch_loop_steady challenge_data l Hsame acc u)
          as [db' [s' [Hloop [Hk [Hall [_ Hid]]]]]]
    end.
    rewrite Hloop in Hspec. rewrite Hspec. simpl.
    exists db'. auto. }
  destruct (stored (disk s)) as [|kv db] eqn:Hst.
  - assert (Hempty : forall st : State,
               stored (disk st) = [] ->
               disk (run_command st CmdFetch) = disk st).
    { intros st Hnil. unfold run_command, main, bind.
      rewrite load_db_spec, Hnil. reflexivity. }
    assert (Hd : disk once = disk s) by (apply Hempty, Hst).
    apply Hempty. rewrite Hd. exact Hst.
  - destruct (Hrun s) as [db1 [Hd1 [Hk1 [Hall1 _]]]];
      [rewrite Hst; discriminate |].
    fold once in Hd1.
    assert (Hne : stored (disk once) <> []).
    { rewrite Hd1. simpl. intros Hnil. rewrite Hnil, Hst in Hk1.
      discriminate. }
    destruct (Hrun once Hne) as [db2 [Hd2 [_ [_ Hid2]]]].
    rewrite Hd2, Hd1. f_equal. rewrite Hd1 in Hid2. simpl in Hid2.
    apply Hid2. rewrite Hk1. exact Hall1.
Qed.


(** *** Fetch: what the pass and the command save for a known address *)

Lemma any_id_after_append (x : Challenge) (q : list Challenge) :
  any_id (challengeId x) (sort_by_id (q ++ [x])) = true.
Proof.
  rewrite (any_id_perm _ _ _ (sort_by_id_perm _)).
  unfold any_id. rewrite existsb_app. simpl.
  rewrite String.eqb_refl, orb_true_r. reflexivity.
Qed.

Lemma fetched_idem (challenge_data : ChallengeData) (entry : AddressEntry) :
  fetched challenge_data (fetched challenge_data entry) =
  fetched challenge_data entry.
Proof.
  destruct (any_id (challenge_id challenge_data)
              (get_default (challenge_queue entry) [])) eqn:Hany.
  - assert (Hf : fetched challenge_data entry = entry)
      by (unfold fetched; rewrite Hany; reflexivity).
    rewrite !Hf. reflexivity.
  - assert (Hf : fetched challenge_data entry =
                 set_challenge_queue entry
                   (sort_by_id
                      (get_default (challenge_queue entry) [] ++
                       [new_challenge_of challenge_data])))
      by (unfold fetched; rewrite Hany; reflexivity).
    rewrite Hf. unfold fetched.
    cbn [set_challenge_queue challenge_queue get_default].
    rewrite (any_id_after_append (new_challenge_of challenge_data)).
    reflexivity.
Qed.

Lemma dict_get_in_keys {V : Type} (k : string) (v : V)
    (d : list (string * V)) :
  dict_get k d = Some v -> existsb (String.eqb k) (keys d) = true.
Proof.
  induction d as [|[k' v'] d IH]; simpl; [discriminate |].
  destruct (String.eqb k k'); simpl; auto.
Qed.

(** One turn of the fetch loop, when the service answers with
    [challenge_data]: the entry of the address fetched becomes its
    [fetched] entry, every other entry stays. *)
Lemma fetch_address_target (challenge_data : ChallengeData) (db : Store)
    (address : string) (s : State) (w : World) :
  requests_get challenge_url (world s) = (GetOk challenge_data, w) ->
  exists db' o,
    fetch_address db address s =
      (Returned db', mkState (disk s) w (out s ++ o)) /\
    (forall entry, dict_get address db = Some entry ->
       db' = if any_id (challenge_id challenge_data)
                  (get_default (challenge_queue entry) [])
             then db
             else dict_set address (fetched challenge_data entry) db) /\
    (forall a,
        dict_get a db' =
        if String.eqb a address
        then option_map (fetched challenge_data) (dict_get a db)
        else dict_get a db).
Proof.
  intros Hreq. unfold fetch_address. munfold. rewrite Hreq. simpl.
  destruct (dict_get address db) as [entry|] eqn:Hget; simpl.
  - destruct (any_id (challenge_id challenge_data)
                (get_default (challenge_queue entry) [])) eqn:Hany; simpl.
    + eexists _, [_; _]. rewrite <- app_assoc.
      split; [reflexivity |]. split.
      * intros e He. inversion He; subst e. rewrite Hany. reflexivity.
      * intros a. destruct (String.eqb a address) eqn:E; [| reflexivity].
        apply String.eqb_eq in E. subst a. rewrite Hget. simpl.
        unfold fetched. rewrite Hany. reflexivity.
    + eexists _, [_; _]. rewrite <- app_assoc.
      split; [reflexivity |].
      assert (Hf : fetched challenge_data entry =
                   set_challenge_queue entry
                     (sort_by_id
                        (get_default (challenge_queue entry) [] ++
                         [new_challenge_of challenge_data])))
        by (unfold fetched; rewrite Hany; reflexivity).
      split.
      * intros e He. inversion He; subst e. rewrite Hany, Hf. reflexivity.
      * intros a. destruct (String.eqb a address) eqn:E.
        -- apply String.eqb_eq in E. subst a.
           rewrite dict_get_set_same, Hget. cbn [option_map].
           rewrite Hf. reflexivity.
        -- apply String.eqb_neq in E.
           apply dict_get_set_other, E.
  - eexists _, [_; _]. rewrite <- app_assoc.
    split; [reflexivity |]. split; [discriminate |].
    intros a. destruct (String.eqb a address) eqn:E; [| reflexivity].
    apply String.eqb_eq in E. subst a. rewrite Hget. reflexivity.
Qed.

Lemma fetch_loop_target (challenge_data : ChallengeData)
    (addresses : list string) :
  (forall w, fst (requests_get challenge_url w) = GetOk challenge_data) ->
  forall db s, exists db' s',
    for_each fetch_address addresses db s = (Returned db', s') /\
    (forall a,
        dict_get a db' =
        if existsb (String.eqb a) addresses
        then option_map (fetched challenge_data) (dict_get a db)
        else dict_get a db).
Proof.
  intros Hsame.
  induction addresses as [|a0 l IH]; simpl; intros db s.
  - exists db, s. split; [reflexivity | reflexivity].
  - pose proof (Hsame (world s)) as Hreq.
    destruct (requests_get challenge_url (world s)) as [r w] eqn:Hr.
    simpl in Hreq. subst r.
    destruct (fetch_address_target challenge_data db a0 s w Hr)
      as [db1 [o [Hrun [_ Hget1]]]].
    destruct (IH db1 (mkState (disk s) w (out s ++ o)))
      as [db2 [s2 [Hrest Hget2]]].
    exists db2, s2. unfold bind. rewrite Hrun.
    split; [exact Hrest |].
    intros a. rewrite Hget2, Hget1.
    destruct (String.eqb a a0), (existsb (String.eqb a) l); simpl;
      try reflexivity.
    destruct (dict_get a db) as [e|]; simpl; [| reflexivity].
    rewrite fetched_idem. reflexivity.
Qed.

(** C7. For an address the store knows, when the remote service answers
    with a challenge: if its id is already in the address's queue the
    store is returned unchanged; otherwise the entry of that address gets
    the queue re-sorted with exactly one more record, the new one, whose
    status is [available] -- and the queue then holds the id, so that a
    repeated fetch changes nothing.  This is what is saved: a pass of
    [fetch_challenges] over the address returns and leaves that store in
    the document; and the [fetch] command, going through every address of
    the store while the service hands out this challenge, leaves the
    address with the entry so described. *)
Theorem fetch_known_address (db : Store) (address : string)
    (entry : AddressEntry) (challenge_data : ChallengeData) (s : State)
    (w : World) :
  dict_get address db = Some entry ->
  requests_get challenge_url (world s) = (GetOk challenge_data, w) ->
  let q := get_default (challenge_queue entry) [] in
  let new_challenge := new_challenge_of challenge_data in
  (if any_id (challenge_id challenge_data) q
   then fst (fetch_address db address s) = Returned db
   else
     exists q',
       fst (fetch_address db address s) =
         Returned (dict_set address (set_challenge_queue entry q') db) /\
       q' = sort_by_id (q ++ [new_challenge]) /\
       Permutation q' (q ++ [new_challenge]) /\
       length q' = S (length q) /\
       queue_sorted q' /\
       status new_challenge = "available" /\
       any_id (challenge_id challenge_data) q' = true) /\
  (disk s = Decodes db ->
   fst (fetch_challenges [address] s) = Returned tt /\
   disk (snd (fetch_challenges [address] s)) =
     Decodes
       (if any_id (challenge_id challenge_data) q
        then db
        else dict_set address
               (set_challenge_queue entry
                  (sort_by_id (q ++ [new_challenge]))) db)) /\
  (disk s = Decodes db ->
   (forall w0, fst (requests_get challenge_url w0) = GetOk challenge_data) ->
   dict_get address (stored (disk (run_command s CmdFetch))) =
     Some
       (if any_id (challenge_id challenge_data) q
        then entry
        else set_challenge_queue entry
               (sort_by_id (q ++ [new_challenge])))).
Proof.
  intros Hget Hreq q new_challenge.
  split; [| split].
  - unfold fetch_address. munfold. rewrite Hreq, Hget. simpl.
    fold q. destruct (any_id (challenge_id challenge_data) q) eqn:Hany; simpl.
    + reflexivity.
    + exists (sort_by_id (q ++ [new_challenge])).
      split; [reflexivity |]. split; [reflexivity |].
      assert (Hp : Permutation (sort_by_id (q ++ [new_challenge]))
                     (q ++ [new_challenge])) by apply sort_by_id_perm.
      split; [exact Hp |].
      split.
      { rewrite (Permutation_length Hp), length_app. simpl. lia. }
      split; [apply sort_by_id_sorted |].
      split; [reflexivity |].
      apply (any_id_after_append new_challenge).
  - intros Hdisk.
    pose proof (fetch_challenges_spec [address] s) as Hspec.
    cbv zeta in Hspec. cbn [for_each] in Hspec. unfold bind at 1 in Hspec.
    rewrite Hdisk in Hspec. cbn [stored] in Hspec.
    match type of Hspec with
    | context [fetch_address db address ?s0] =>
        destruct (fetch_address_target challenge_data db address s0 w Hreq)
          as [db' [o [Hrun [Hdb' _]]]]
    end.
    rewrite Hrun in Hspec. unfold ret in Hspec. rewrite Hspec. simpl.
    split; [reflexivity |].
    rewrite (Hdb' entry Hget). fold q.
    unfold fetched. fold q.
    destruct (any_id (challenge_id challenge_data) q); reflexivity.
  - intros Hdisk Hsame.
    unfold run_command, main, bind. rewrite load_db_spec, Hdisk.
    cbn [stored].
    destruct db as [|kv db0]; [discriminate |]. cbv iota.
    match goal with
    | |- context [fetch_challenges ?a ?u] =>
        pose proof (fetch_challenges_spec a u) as Hspec;
        cbv zeta in Hspec; cbn [disk world out stored] in Hspec
    end.
    match type of Hspec with
    | context [for_each fetch_address ?l ?acc ?u] =>
        destruct (fetch_loop_target challenge_data l Hsame acc u)
          as [db' [s' [Hloop Htarget]]]
    end.
    rewrite Hloop in Hspec. rewrite Hspec. cbn [snd disk stored].
    rewrite Htarget, (dict_get_in_keys _ _ _ Hget), Hget. simpl.
    unfold fetched. fold q. reflexivity.
Qed.


End Orchestrator.

(** ** The file protocol of [save_db] *)

Lemma append_empty_r (s : string) : (s ++ "")%string = s.
Proof. induction s as [|a s IH]; simpl; [| rewrite IH]; reflexivity. Qed.

Lemma append_assoc (s1 s2 s3 : string) :
  ((s1 ++ s2) ++ s3)%string = (s1 ++ (s2 ++ s3))%string.
Proof. induction s1 as [|a s1 IH]; simpl; [| rewrite IH]; reflexivity. Qed.

Lemma concat_cons (chunk : string) (chunks : list string) :
  String.concat "" (chunk :: chunks) =
  (chunk ++ String.concat "" chunks)%string.
Proof.
  destruct chunks as [|c l]; simpl.
  - rewrite append_empty_r. reflexivity.
  - reflexivity.
Qed.

Lemma write_chunks_all (chunks : list string) (content : string) :
  write_chunks chunks None content =
  (Returned tt, (content ++ String.concat "" chunks)%string).
Proof.
  revert content.
  induction chunks as [|c l IH]; intros content.
  - simpl. rewrite append_empty_r. reflexivity.
  - rewrite concat_cons. simpl write_chunks. rewrite IH, append_assoc.
    reflexivity.
Qed.

Lemma write_chunks_fault (chunks : list string) (k : nat) (content : string) :
  write_chunks chunks (Some k) content =
  (if (k <? length chunks)%nat then Raised OtherException else Returned tt,
   (content ++ String.concat "" (firstn k chunks))%string).
Proof.
  revert k content.
  induction chunks as [|c l IH]; intros k content.
  - destruct k; simpl; rewrite append_empty_r; reflexivity.
  - destruct k as [|k].
    + simpl. rewrite append_empty_r. reflexivity.
    + simpl write_chunks. rewrite IH.
      change (firstn (S k) (c :: l)) with (c :: firstn k l).
      rewrite concat_cons, append_assoc.
      change (S k <? length (c :: l))%nat with (k <? length l)%nat.
      reflexivity.
Qed.

(** C4, as the code has it.  When nothing fails, [save_db] leaves in the
    file the serialization of the full mapping, whatever the file held.
    The file is written in place: it is emptied when it is opened, so when
    the write of chunk [k] fails the file holds the first [k] chunks of the
    new document and nothing of the previous one. *)
Theorem save_db_writes_in_place (iterencode : Store -> list string)
    (db : Store) (file : option string) (k : nat) :
  save_db_file iterencode None db file =
    (Returned tt, Some (String.concat "" (iterencode db))) /\
  save_db_file iterencode (Some k) db file =
    (if (k <? length (iterencode db))%nat
     then Raised OtherException else Returned tt,
     Some (String.concat "" (firstn k (iterencode db)))).
Proof.
  unfold save_db_file. split.
  - rewrite write_chunks_all. reflexivity.
  - rewrite write_chunks_fault. reflexivity.
Qed.

(** C4 as stated fails: a write that fails after the first of two chunks
    leaves ["{"] in a file that held ["{}"]. *)
Lemma save_db_failure_truncates :
  ~ (forall (iterencode : Store -> list string) (fault : option nat)
       (db : Store) (file : option string),
        fst (save_db_file iterencode fault db file) <> Returned tt ->
        snd (save_db_file iterencode fault db file) = file).
Proof.
  intros H.
  specialize (H (fun _ => ["{"; "}"]) (Some 1%nat) [] (Some "{}")).
  simpl in H. assert (Hne : Raised OtherException <> Returned tt)
    by discriminate.
  specialize (H Hne). discriminate.
Qed.

(** ** The properties on the concrete world *)

Local Abbreviation demo_state d := (mkState Demo.World d Demo.noon []).

Local Abbreviation demo_run read post :=
  (run_command Demo.World read Demo.requests_get Demo.subprocess_run post
     Demo.datetime_now Demo.fromisoformat Demo.isoformat).

Local Abbreviation demo_runs read post :=
  (run_commands Demo.World read Demo.requests_get Demo.subprocess_run post
     Demo.datetime_now Demo.fromisoformat Demo.isoformat).

Local Abbreviation demo_main read post :=
  (main Demo.World read Demo.requests_get Demo.subprocess_run post
     Demo.datetime_now Demo.fromisoformat Demo.isoformat).

Local Abbreviation demo_solve_challenge post :=
  (solve_challenge Demo.World Demo.subprocess_run post Demo.datetime_now
     Demo.fromisoformat Demo.isoformat).

Lemma demo_receipts_ok : receipts_ok Demo.World Demo.read_sorted.
Proof.
  intros w file_path data. unfold Demo.read_sorted.
  destruct (String.eqb file_path "sorted.json"); [| discriminate].
  intros H. inversion H; subst. simpl.
  split; [apply is_sorted_by_id_spec | apply has_unique_ids_spec];
    reflexivity.
Qed.

(** C1 as stated fails, in two ways.  Importing [unsorted.json] into a
    store that does not exist yet creates the address with the queue of
    the file, which is not in ascending order.  And a fetch that brings an
    id the queue already holds leaves a queue that was out of order as it
    was. *)
Lemma import_copies_unsorted_queue :
  ~ store_ok
      (stored
         (disk Demo.World
            (demo_run Demo.read_json Demo.post_ok (demo_state Missing)
               (CmdInit ["unsorted.json"])))) /\
  ~ store_ok
      (stored
         (disk Demo.World
            (demo_run Demo.read_json Demo.post_ok
               (demo_state (Decodes (Demo.store1 [Demo.c2; Demo.c1])))
               CmdFetch))).
Proof.
  split; intros H; vm_compute in H;
    inversion H as [|kv db [Hsorted _] _]; subst;
    apply is_sorted_by_id_spec in Hsorted; vm_compute in Hsorted;
    discriminate.
Qed.

Lemma import_fetch_keep_queues_ok_witness :
  receipts_ok Demo.World Demo.read_sorted /\
  store_ok
    (stored
       (disk Demo.World
          (demo_runs Demo.read_sorted Demo.post_ok
             [CmdInit ["sorted.json"]; CmdFetch] (demo_state Missing)))).
Proof.
  split; [exact demo_receipts_ok |].
  apply import_fetch_keep_queues_ok.
  - exact demo_receipts_ok.
  - reflexivity.
  - simpl. constructor.
Defined.

Lemma failed_submission_keeps_record_witness :
  status Demo.c1 = "available" /\
  fst (demo_solve_challenge Demo.post_fails Demo.noon Demo.addr1 Demo.c1
         (demo_state (Decodes (Demo.store1 [Demo.c1])))) =
  Returned Demo.c1.
Proof.
  split; [reflexivity |].
  destruct (failed_submission_keeps_record Demo.World Demo.subprocess_run
              Demo.post_fails Demo.datetime_now Demo.fromisoformat
              Demo.isoformat Demo.noon Demo.addr1 Demo.c1 Demo.nov3
              1762128000000%Z (demo_state (Decodes (Demo.store1 [Demo.c1])))
              ("abc123" ++ Demo.newline)%string Demo.noon Demo.noon
              eq_refl eq_refl eq_refl ltac:(vm_compute; discriminate)
              eq_refl eq_refl) as [Hrun _].
  rewrite Hrun. reflexivity.
Defined.


Lemma fetch_known_address_witness :
  (exists q',
      fst (fetch_address Demo.World Demo.requests_get
             (Demo.store1 [Demo.c1]) Demo.addr1
             (demo_state (Decodes (Demo.store1 [Demo.c1])))) =
        Returned (Demo.store1 q') /\
      q' = [Demo.c1; new_challenge_of Demo.challenge_data_c2]) /\
  disk Demo.World
    (snd (fetch_challenges Demo.World Demo.requests_get [Demo.addr1]
            (demo_state (Decodes (Demo.store1 [Demo.c1]))))) =
    Decodes
      (Demo.store1 [Demo.c1; new_challenge_of Demo.challenge_data_c2]) /\
  dict_get Demo.addr1
    (stored
       (disk Demo.World
          (demo_run Demo.read_json Demo.post_ok
             (demo_state (Decodes (Demo.store1 [Demo.c1]))) CmdFetch))) =
    Some
      (mkEntry (Some Demo.receipt)
         (Some [Demo.c1; new_challenge_of Demo.challenge_data_c2])).
Proof.
  destruct (fetch_known_address Demo.World Demo.read_json
              Demo.requests_get Demo.subprocess_run Demo.post_ok
              Demo.datetime_now Demo.fromisoformat Demo.isoformat
              (Demo.store1 [Demo.c1]) Demo.addr1
              (mkEntry (Some Demo.receipt) (Some [Demo.c1]))
              Demo.challenge_data_c2
              (demo_state (Decodes (Demo.store1 [Demo.c1]))) Demo.noon
              eq_refl eq_refl) as [[q' [Hrun [Hq _]]] [Hpass Hcommand]].
  split; [| split].
  - exists q'. split; [rewrite Hrun; reflexivity | rewrite Hq; reflexivity].
  - destruct (Hpass eq_refl) as [_ Hdisk]. rewrite Hdisk. reflexivity.
  - rewrite (Hcommand eq_refl (fun w0 => eq_refl)). reflexivity.
Defined.

Lemma empty_store_rejected_witness :
  stored Missing = [] /\
  demo_main Demo.read_json Demo.post_ok CmdSolve (demo_state Missing) =
  (Returned tt,
   mkState Demo.World Missing Demo.noon [Print MsgNotInitialized]).
Proof.
  split; [reflexivity |].
  apply (empty_store_rejected Demo.World Demo.read_json Demo.requests_get
           Demo.subprocess_run Demo.post_ok Demo.datetime_now
           Demo.fromisoformat Demo.isoformat (demo_state Missing) eq_refl).
Defined.

(** C5 fails on the code.  The deadline is read and parsed before the
    [try] block: a first record without [latestSubmission], or with one
    that does not parse, ends the pass with the exception.  Nothing is
    saved, and the second record, which a pass would mark [expired], is
    never looked at. *)
Theorem solve_pass_aborts_on_bad_deadline :
  let missing := Demo.store1 [Demo.c1_nokey; Demo.c2_past] in
  let malformed := Demo.store1 [Demo.c1_malformed; Demo.c2_past] in
  demo_main Demo.read_json Demo.post_ok CmdSolve
    (demo_state (Decodes missing)) =
    (Raised (KeyError "latestSubmission"),
     mkState Demo.World (Decodes missing) Demo.noon [Print MsgSolving]) /\
  demo_main Demo.read_json Demo.post_ok CmdSolve
    (demo_state (Decodes malformed)) =
    (Raised ValueError,
     mkState Demo.World (Decodes malformed) Demo.noon [Print MsgSolving]) /\
  demo_main Demo.read_json Demo.post_ok CmdSolve
    (demo_state (Decodes (Demo.store1 [Demo.c2_past]))) =
    (Returned tt,
     mkState Demo.World
       (Decodes (Demo.store1 [set_status Demo.c2_past "expired"]))
       Demo.noon
       [Print MsgSolving; Print (MsgExpired "**D01C02" Demo.addr1)]).
Proof.
  repeat split; vm_compute; reflexivity.
Qed.

(** ** The further properties on the concrete world *)

Local Abbreviation demo_known := (Demo.store1 [Demo.c1]).

Local Abbreviation demo_entry := (mkEntry (Some Demo.receipt) (Some [Demo.c1])).

Lemma registration_receipt_is_kept_witness :
  dict_get Demo.addr1 demo_known = Some demo_entry /\
  exists entry',
    dict_get Demo.addr1
      (stored
         (disk Demo.World
            (demo_runs Demo.read_json Demo.post_ok
               [CmdInit ["unsorted.json"]; CmdFetch; CmdSolve]
               (demo_state (Decodes demo_known))))) = Some entry' /\
    registration_receipt entry' = Some Demo.receipt.
Proof.
  split; [reflexivity |].
  apply (registration_receipt_is_kept Demo.World Demo.read_json
           Demo.requests_get Demo.subprocess_run Demo.post_ok
           Demo.datetime_now Demo.fromisoformat Demo.isoformat
           [CmdInit ["unsorted.json"]; CmdFetch; CmdSolve]
           (demo_state (Decodes demo_known)) Demo.addr1 demo_entry eq_refl).
Defined.

Lemma all_commands_keep_queues_ok_witness :
  store_ok (stored Missing) /\
  store_ok
    (stored
       (disk Demo.World
          (demo_runs Demo.read_sorted Demo.post_ok
             [CmdInit ["sorted.json"]; CmdFetch; CmdSolve]
             (demo_state Missing)))).
Proof.
  split; [constructor |].
  apply all_commands_keep_queues_ok.
  - exact demo_receipts_ok.
  - simpl. constructor.
Defined.

Lemma solve_challenge_shapes_witness :
  let c := Demo.c1_past in
  let c' := set_status Demo.c1_past "expired" in
  c' = c \/
  (status c = "available" /\
   (c' = set_status c "expired" \/
    exists t nonce,
      c' = mark_solved Demo.isoformat c t nonce \/
      exists h, c' = set_hash (mark_solved Demo.isoformat c t nonce) h)).
Proof.
  exact (solve_challenge_shapes Demo.World Demo.subprocess_run Demo.post_ok
           Demo.datetime_now Demo.fromisoformat Demo.isoformat Demo.noon
           Demo.addr1 Demo.c1_past (demo_state (Decodes demo_known))
           (set_status Demo.c1_past "expired")
           (mkState Demo.World (Decodes demo_known) Demo.noon
              [Print (MsgExpired "**D01C01" Demo.addr1)])
           eq_refl).
Defined.

Lemma accepted_solution_marks_solved_witness :
  (Demo.noon <= 1762128000000)%Z /\
  fst (demo_solve_challenge Demo.post_ok Demo.noon Demo.addr1 Demo.c1
         (demo_state (Decodes demo_known))) =
  Returned
    (set_salt
       (set_solvedAt (set_status Demo.c1 "solved")
          "2025-11-02T12:00:00.000Z")
       "abc123").
Proof.
  assert (Hle : (Demo.noon <= 1762128000000)%Z)
    by (vm_compute; discriminate).
  split; [exact Hle |].
  destruct (accepted_solution_marks_solved Demo.World Demo.subprocess_run
              Demo.post_ok Demo.datetime_now Demo.fromisoformat
              Demo.isoformat Demo.noon Demo.addr1 Demo.c1 Demo.nov3
              1762128000000%Z (demo_state (Decodes demo_known))
              ("abc123" ++ Demo.newline)%string (BodyObject None)
              Demo.noon Demo.noon eq_refl eq_refl eq_refl Hle
              eq_refl eq_refl) as [Hrun _].
  rewrite Hrun. reflexivity.
Defined.

Lemma failed_solver_keeps_record_witness :
  (Demo.noon <= 1762128000000)%Z /\
  fst (solve_challenge Demo.World
         (fun _ w => (SolverCalledProcessError "no nonce found", w))
         Demo.post_ok Demo.datetime_now Demo.fromisoformat Demo.isoformat
         Demo.noon Demo.addr1 Demo.c1 (demo_state (Decodes demo_known))) =
  Returned Demo.c1.
Proof.
  assert (Hle : (Demo.noon <= 1762128000000)%Z)
    by (vm_compute; discriminate).
  split; [exact Hle |].
  destruct (failed_solver_keeps_record Demo.World
              (fun _ w => (SolverCalledProcessError "no nonce found", w))
              Demo.post_ok Demo.datetime_now Demo.fromisoformat
              Demo.isoformat Demo.noon Demo.addr1 Demo.c1 Demo.nov3
              1762128000000%Z (demo_state (Decodes demo_known))
              eq_refl eq_refl eq_refl Hle) as [Hrun _].
  rewrite (Hrun "no nonce found" Demo.noon eq_refl). reflexivity.
Defined.

Lemma solve_without_available_is_noop_witness :
  let db :=
    Demo.store1 [set_status Demo.c1 "solved"; set_status Demo.c2 "expired"] in
  no_available db = true /\
  solve_challenges Demo.World Demo.subprocess_run Demo.post_ok
    Demo.datetime_now Demo.fromisoformat Demo.isoformat
    (demo_state (Decodes db)) =
  (Returned tt, mkState Demo.World (Decodes db) Demo.noon [Print MsgSolving]).
Proof.
  intros db. split; [reflexivity |].
  apply (solve_without_available_is_noop Demo.World Demo.subprocess_run
           Demo.post_ok Demo.datetime_now Demo.fromisoformat Demo.isoformat
           (demo_state (Decodes db)) db eq_refl eq_refl).
Defined.

Lemma fetch_aborts_on_other_exception_witness :
  fetch_challenges Demo.World
    (fun _ w => (GetUncaught (KeyError "challenge"), w))
    [Demo.addr1; "addr2"] (demo_state (Decodes demo_known)) =
  (Raised (KeyError "challenge"),
   mkState Demo.World (Decodes demo_known) Demo.noon
     [Print MsgFetching; HttpGet challenge_url]).
Proof.
  apply (fetch_aborts_on_other_exception Demo.World
           (fun _ w => (GetUncaught (KeyError "challenge"), w))
           Demo.addr1 ["addr2"] (demo_state (Decodes demo_known))
           (KeyError "challenge") Demo.noon eq_refl).
Defined.

Lemma init_with_unusable_files_witness :
  forallb (unusable Demo.World Demo.read_json Demo.noon)
    ["broken.json"; "locked.json"; "nowhere.json"] = true /\
  disk Demo.World
    (snd (init_db Demo.World Demo.read_json
            ["broken.json"; "locked.json"; "nowhere.json"]
            (demo_state Undecodable))) = Decodes [].
Proof.
  split; [reflexivity |].
  apply (init_with_unusable_files Demo.World Demo.read_json
           ["broken.json"; "locked.json"; "nowhere.json"]
           (demo_state Undecodable) eq_refl).
Defined.

Lemma import_known_address_witness :
  dict_get Demo.addr1 demo_known = Some demo_entry /\
  fst (init_file Demo.World Demo.read_json demo_known "sorted.json"
         (demo_state (Decodes demo_known))) =
  Returned (Demo.store1 [Demo.c1; Demo.c2]).
Proof.
  split; [reflexivity |].
  rewrite (import_known_address Demo.World Demo.read_json demo_known
             "sorted.json"
             (mkReceiptData (Some Demo.receipt) (Some [Demo.c1; Demo.c2]))
             Demo.addr1 demo_entry (demo_state (Decodes demo_known))
             eq_refl eq_refl eq_refl).
  reflexivity.
Defined.

Lemma raised_command_saves_nothing_witness :
  let db := Demo.store1 [Demo.c2_past; Demo.c1_nokey] in
  fst (demo_main Demo.read_json Demo.post_ok CmdSolve
         (demo_state (Decodes db))) =
    Raised (KeyError "latestSubmission") /\
  disk Demo.World
    (snd (demo_main Demo.read_json Demo.post_ok CmdSolve
            (demo_state (Decodes db)))) =
  Decodes db.
Proof.
  intros db.
  destruct (raised_command_saves_nothing Demo.World Demo.read_json
              Demo.requests_get Demo.subprocess_run Demo.post_ok
              Demo.datetime_now Demo.fromisoformat Demo.isoformat
              (demo_state (Decodes db)) db (KeyError "latestSubmission")
              eq_refl ltac:(discriminate)) as [_ Hsolve].
  exact (Hsolve eq_refl).
Defined.

Lemma fetch_survives_request_failures_witness :
  fst (fetch_challenges Demo.World (fun _ w => (GetRequestException, w))
         [Demo.addr1; "addr2"] (demo_state (Decodes demo_known))) =
    Returned tt /\
  disk Demo.World
    (snd (fetch_challenges Demo.World (fun _ w => (GetRequestException, w))
            [Demo.addr1; "addr2"] (demo_state (Decodes demo_known)))) =
    Decodes demo_known.
Proof.
  destruct (fetch_survives_request_failures Demo.World
              (fun _ w => (GetRequestException, w))
              [Demo.addr1; "addr2"] (demo_state (Decodes demo_known))
              (fun w => eq_refl)) as [Hret [Hdisk _]].
  split; [exact Hret | exact Hdisk].
Defined.

Lemma import_new_address_witness :
  exists db',
    fst (init_file Demo.World Demo.read_json [] "unsorted.json"
           (demo_state Missing)) = Returned db' /\
    keys db' = [Demo.addr1] /\
    dict_get Demo.addr1 db' =
      Some (mkEntry (Some Demo.receipt) (Some [Demo.c2; Demo.c1])).
Proof.
  destruct (import_new_address Demo.World Demo.read_json [] "unsorted.json"
              (mkReceiptData (Some Demo.receipt) (Some [Demo.c2; Demo.c1]))
              Demo.addr1 (demo_state Missing) eq_refl eq_refl eq_refl)
    as [db' [Hrun [Hget [Hkeys _]]]].
  exists db'. rewrite Hrun. auto.
Defined.

Lemma fetch_twice_is_fetch_once_witness :
  let once :=
    demo_run Demo.read_json Demo.post_ok (demo_state (Decodes demo_known))
      CmdFetch in
  disk Demo.World (demo_run Demo.read_json Demo.post_ok once CmdFetch) =
  disk Demo.World once.
Proof.
  apply (fetch_twice_is_fetch_once Demo.World Demo.read_json
           Demo.requests_get Demo.subprocess_run Demo.post_ok
           Demo.datetime_now Demo.fromisoformat Demo.isoformat
           Demo.challenge_data_c2 (demo_state (Decodes demo_known))
           (fun w => eq_refl)).
Defined.

(** [strip] removes Unicode white space as well: here a no-break space
    (C2 A0) in front and an em space (E2 80 83) and a line feed behind. *)
Example strip_unicode_white_space :
  let bytes l := string_of_list_ascii (map ascii_of_nat l) in
  strip (bytes [194; 160; 97; 98; 32; 99; 226; 128; 131; 10]) = "ab c".
Proof. reflexivity. Qed.
